(** * Time-dependent RMSF ([tRMSF/trmsfkit.py]): embedding and properties

    The analysis class [trmsfkit] keeps its arrays in mutable numpy
    objects.  They are modelled here as cells of a store addressed by
    locations, so that copying an array and sharing it are different
    things.  Coordinates are exact reals; integers are [Z] with Python's
    floor division and modulo. *)

From Stdlib Require Import Reals ZArith Lia Lra.
From Stdlib Require Floats.
From stdpp Require Import gmap list.

Local Open Scope Z_scope.

(** ** Arrays *)

(** One row of an [(n, 3)] coordinate array. *)
Record vec3 := V3 { vx : R; vy : R; vz : R }.

(** An [(n, 3)] array of positions. *)
Abbreviation coords := (list vec3).

(** An [(n_frames, n_atoms)] array of fluctuations. *)
Abbreviation table := (list (list R)).

Inductive ndarray :=
  | Coords (c : coords)
  | Table (t : table).

Definition loc := positive.

(** ** Exceptions *)

Inductive exn :=
  | ValueError
  | IndexError
  | ZeroDivisionError
  | AttributeError
  | TypeError.

Inductive result (A : Type) :=
  | Ok (a : A)
  | Raise (e : exn).
Arguments Ok {A} a.
Arguments Raise {A} e.

#[global] Instance result_bind : MBind result := fun A B k r =>
  match r with
  | Ok a => k a
  | Raise e => Raise e
  end.

#[global] Instance Rle_decision (x y : R) : Decision (x <= y)%R := Rle_dec x y.

Definition attr {A} (o : option A) : result A :=
  match o with
  | Some a => Ok a
  | None => Raise AttributeError
  end.

(** ** numpy kernels *)

Module np.

Definition vzero : vec3 := V3 0%R 0%R 0%R.

Definition vadd (a b : vec3) : vec3 :=
  V3 (vx a + vx b)%R (vy a + vy b)%R (vz a + vz b)%R.

Definition vsub (a b : vec3) : vec3 :=
  V3 (vx a - vx b)%R (vy a - vy b)%R (vz a - vz b)%R.

Definition vdiv (a : vec3) (k : R) : vec3 :=
  V3 (vx a / k)%R (vy a / k)%R (vz a / k)%R.

Definition vsquare (a : vec3) : vec3 :=
  V3 (vx a * vx a)%R (vy a * vy a)%R (vz a * vz a)%R.

(** [np.zeros((n, 3))] *)
Definition zeros3 (n : nat) : coords := replicate n vzero.

(** [np.zeros((n, m))] *)
Definition zeros (n m : nat) : table := replicate n (replicate m 0%R).

(** Elementwise operations on two [(n, 3)] arrays; the shapes must agree. *)
Definition add (a b : coords) : result coords :=
  if decide (length a = length b) then Ok (zip_with vadd a b)
  else Raise ValueError.

Definition sub (a b : coords) : result coords :=
  if decide (length a = length b) then Ok (zip_with vsub a b)
  else Raise ValueError.

(** [a / k] for a scalar [k] *)
Definition div (a : coords) (k : R) : coords := map (fun v => vdiv v k) a.

(** [a ** 2] *)
Definition square (a : coords) : coords := map vsquare a.

(** [np.sum(a, axis=1)] *)
Definition sum_axis1 (a : coords) : list R :=
  map (fun v => (vx v + vy v + vz v)%R) a.

(** [np.sqrt] on a vector *)
Definition sqrt (a : list R) : list R := map R_sqrt.sqrt a.

(** An index into an axis of length [n]: negative indices count from the
    end, anything outside [[-n, n)] is an [IndexError]. *)
Definition index (n : nat) (i : Z) : result nat :=
  if decide (0 <= i < Z.of_nat n) then Ok (Z.to_nat i)
  else if decide (- Z.of_nat n <= i < 0) then Ok (Z.to_nat (i + Z.of_nat n))
  else Raise IndexError.

(** [t[i] = row] *)
Definition setitem (t : table) (i : Z) (row : list R) : result table :=
  k ← index (length t) i;
  match t !! k with
  | Some old =>
      if decide (length old = length row) then Ok (<[k := row]> t)
      else Raise ValueError
  | None => Raise IndexError
  end.

(** [(t >= 0).all()], on exact reals; see [ieee.all_ge0] for the test on
    binary64 entries, where NaN is neither at least zero nor negative. *)
Definition all_ge0 (t : table) : bool :=
  forallb (forallb (fun x => bool_decide (0 <= x)%R)) t.

End np.

(** ** The store and the analysis object *)

(** [frames] is the trajectory as stored, [ts] the Frame Source's live
    position buffer, which every seek overwrites in place.  The remaining
    fields are the attributes of [self]; an attribute not yet assigned is
    [None]. *)
Record state := State {
  heap : gmap loc ndarray;
  frames : list coords;
  ts : loc;
  n_atoms : nat;
  skip : Z;
  reference_frame : Z;
  _frame_index : Z;
  avg_coordinates : option loc;
  seg_length : option Z;
  reference_positions : option loc;
  trmsf : option loc
}.

Definition set_heap (h : gmap loc ndarray) (st : state) : state :=
  State h (frames st) (ts st) (n_atoms st) (skip st) (reference_frame st)
        (_frame_index st) (avg_coordinates st) (seg_length st)
        (reference_positions st) (trmsf st).

Definition set_frame_index (i : Z) (st : state) : state :=
  State (heap st) (frames st) (ts st) (n_atoms st) (skip st)
        (reference_frame st) i (avg_coordinates st) (seg_length st)
        (reference_positions st) (trmsf st).

Definition set_avg_coordinates (l : loc) (st : state) : state :=
  State (heap st) (frames st) (ts st) (n_atoms st) (skip st)
        (reference_frame st) (_frame_index st) (Some l) (seg_length st)
        (reference_positions st) (trmsf st).

Definition set_seg_length (n : Z) (st : state) : state :=
  State (heap st) (frames st) (ts st) (n_atoms st) (skip st)
        (reference_frame st) (_frame_index st) (avg_coordinates st) (Some n)
        (reference_positions st) (trmsf st).

Definition set_reference_positions (l : loc) (st : state) : state :=
  State (heap st) (frames st) (ts st) (n_atoms st) (skip st)
        (reference_frame st) (_frame_index st) (avg_coordinates st)
        (seg_length st) (Some l) (trmsf st).

Definition set_trmsf (l : loc) (st : state) : state :=
  State (heap st) (frames st) (ts st) (n_atoms st) (skip st)
        (reference_frame st) (_frame_index st) (avg_coordinates st)
        (seg_length st) (reference_positions st) (Some l).

(** A new array object: a location not yet in the store. *)
Definition alloc (a : ndarray) (st : state) : loc * state :=
  let l := fresh (dom (heap st)) in (l, set_heap (<[l := a]> (heap st)) st).

(** In-place write to an existing array object. *)
Definition store (l : loc) (a : ndarray) (st : state) : state :=
  set_heap (<[l := a]> (heap st)) st.

Definition load_coords (l : loc) (st : state) : result coords :=
  match heap st !! l with
  | Some (Coords c) => Ok c
  | _ => Raise TypeError
  end.

Definition load_table (l : loc) (st : state) : result table :=
  match heap st !! l with
  | Some (Table t) => Ok t
  | _ => Raise TypeError
  end.

(** ** Frame Source

    The trajectory reader of the base library, as far as the class uses it:
    its length, integer indexing (which loads the frame into the live
    buffer), the length of a strided slice and the positions of the
    current frame.  Indexing follows the Python sequence protocol. *)
Module trajectory.

(** [len(self._trajectory)] *)
Definition len (st : state) : Z := Z.of_nat (length (frames st)).

(** [self._trajectory[i]] *)
Definition getitem (i : Z) (st : state) : result state :=
  k ← np.index (length (frames st)) i;
  match frames st !! k with
  | Some fr => Ok (store (ts st) (Coords fr) st)
  | None => Raise IndexError
  end.

(** [len(self._trajectory[::step])] *)
Definition len_sliced (step : Z) (st : state) : result Z :=
  if decide (step = 0) then Raise ValueError
  else Ok ((len st + Z.abs step - 1) / Z.abs step).

(** [self.atomgroup.positions] *)
Definition positions (st : state) : result coords := load_coords (ts st) st.

(** [self._trajectory.rewind()]: the first frame becomes the current one. *)
Definition rewind (st : state) : result state := getitem 0 st.

End trajectory.

(** ** The class [trmsfkit] *)

(** [__init__]: stores its arguments, checks nothing. *)
Definition __init__ (h : gmap loc ndarray) (traj : list coords) (buf : loc)
    (natoms : nat) (skip reference_frame : Z) : state :=
  State h traj buf natoms skip reference_frame 0 None None None None.

Definition _prepare (st : state) : result state :=
  n_frames ← trajectory.len_sliced (skip st) st;
  let '(lt, st) := alloc (Table (np.zeros (Z.to_nat n_frames) (n_atoms st))) st in
  let st := set_trmsf lt st in
  st ← trajectory.getitem (reference_frame st) st;
  pos ← trajectory.positions st;
  let '(lr, st) := alloc (Coords pos) st in
  Ok (set_reference_positions lr st).

(** The condition under which [_single_frame] finalises the segment. *)
Definition closes (st : state) : bool :=
  let frame_index := _frame_index st `mod` skip st in
  (frame_index + 1 =? skip st) || (_frame_index st =? trajectory.len st - 1).

Definition _single_frame (st : state) : result state :=
  if decide (skip st = 0) then Raise ZeroDivisionError else
  let seg_num := _frame_index st `div` skip st in
  let frame_index := _frame_index st `mod` skip st in
  let st :=
    if frame_index =? 0 then
      let '(la, st) := alloc (Coords (np.zeros3 (n_atoms st))) st in
      set_seg_length 0 (set_avg_coordinates la st)
    else st in
  la ← attr (avg_coordinates st);
  acc ← load_coords la st;
  pos ← trajectory.positions st;
  acc ← np.add acc pos;
  let st := store la (Coords acc) st in
  n ← attr (seg_length st);
  let st := set_seg_length (n + 1) st in
  if closes st then
    la ← attr (avg_coordinates st);
    acc ← load_coords la st;
    n ← attr (seg_length st);
    let avg := np.div acc (IZR n) in
    lr ← attr (reference_positions st);
    ref ← load_coords lr st;
    diff ← np.sub ref avg;
    let rmsf := np.sqrt (np.sum_axis1 (np.square diff)) in
    lt ← attr (trmsf st);
    t ← load_table lt st;
    t ← np.setitem t seg_num rmsf;
    Ok (store lt (Table t) st)
  else Ok st.

Definition _conclude (st : state) : result state :=
  lt ← attr (trmsf st);
  t ← load_table lt st;
  if np.all_ge0 t then Ok st else Raise ValueError.

(** ** The driver

    The base class's [run] with its default arguments: [_prepare], then
    every frame of the trajectory in ascending order, each loaded into the
    live buffer before [_single_frame] sees it; the frame iterator rewinds
    the trajectory when it is exhausted; then [_conclude]. *)

Definition visit (st : state) (i : nat) : result state :=
  st ← trajectory.getitem (Z.of_nat i) st;
  _single_frame (set_frame_index (Z.of_nat i) st).

Fixpoint frames_loop (idx : list nat) (st : state) : result state :=
  match idx with
  | [] => Ok st
  | i :: idx => st ← visit st i; frames_loop idx st
  end.

(** The state once [_prepare] and the first [n] frames are done. *)
Definition run_upto (n : nat) (st : state) : result state :=
  st ← _prepare st; frames_loop (seq 0 n) st.

Definition run (st : state) : result state :=
  st ← run_upto (length (frames st)) st;
  st ← trajectory.rewind st;
  _conclude st.

(** [self.results.trmsf], [self.reference_positions] and
    [self.avg_coordinates] as values. *)
Definition results_trmsf (st : state) : option table :=
  match trmsf st with
  | Some l => match heap st !! l with Some (Table t) => Some t | _ => None end
  | None => None
  end.

Definition reference_value (st : state) : option coords :=
  match reference_positions st with
  | Some l => match heap st !! l with Some (Coords c) => Some c | _ => None end
  | None => None
  end.

Definition avg_value (st : state) : option coords :=
  match avg_coordinates st with
  | Some l => match heap st !! l with Some (Coords c) => Some c | _ => None end
  | None => None
  end.

(** ** Specification-side quantities *)

(** [ceil(a / b)] for [b > 0]. *)
Definition ceil_div (a b : Z) : Z :=
  if a `mod` b =? 0 then a `div` b else a `div` b + 1.

(** The frames [floor(i/K)*K .. i] of the trajectory. *)
Definition segment (traj : list coords) (K i : Z) : list coords :=
  take (Z.to_nat (i `mod` K + 1)) (drop (Z.to_nat (K * (i `div` K))) traj).

(** Elementwise sum of a list of [(P, 3)] arrays. *)
Fixpoint sum_coords (P : nat) (fs : list coords) : coords :=
  match fs with
  | [] => np.zeros3 P
  | f :: fs => zip_with np.vadd f (sum_coords P fs)
  end.

(** The fluctuation of every particle for a segment with running sum
    [acc] over [n] frames, against the reference [ref]. *)
Definition rmsf_row (ref acc : coords) (n : Z) : list R :=
  np.sqrt (np.sum_axis1 (np.square (zip_with np.vsub ref (np.div acc (IZR n))))).

(** The row index that [_single_frame] assigns to at the current frame,
    if it assigns at all. *)
Definition written_row (st : state) : option Z :=
  if closes st then Some (_frame_index st `div` skip st) else None.

(** Row [s] of a table, as an option. *)
Definition row (s : Z) (t : option table) : option (list R) :=
  t ≫= (fun t => t !! Z.to_nat s).

(** A valid configuration: at least one particle, a stride of at least
    one, a reference frame inside the trajectory, every frame holding
    [n_atoms] positions, and a live buffer that exists. *)
Record valid_config (st : state) : Prop := ValidConfig {
  valid_atoms : (1 <= n_atoms st)%nat;
  valid_skip : 1 <= skip st;
  valid_reference : 0 <= reference_frame st < trajectory.len st;
  valid_shape : Forall (fun fr => length fr = n_atoms st) (frames st);
  valid_buffer : is_Some (heap st !! ts st)
}.

(** The positions of frame [R], the reference frame. *)
Definition reference_of (st : state) : coords :=
  default [] (frames st !! Z.to_nat (reference_frame st)).

(** Whether the segment closes at frame [i]. *)
Definition closes_at (st : state) (i : Z) : bool :=
  closes (set_frame_index i st).

(** The Result Table after the first [n] frames, as a function of the
    input alone: rows of closed segments hold their fluctuations, the
    others are still zero. *)
Fixpoint table_upto (st : state) (n : nat) : table :=
  match n with
  | O => np.zeros (Z.to_nat (ceil_div (trajectory.len st) (skip st))) (n_atoms st)
  | S m =>
      let i := Z.of_nat m in
      if closes_at st i then
        <[Z.to_nat (i `div` skip st) :=
            rmsf_row (reference_of st)
              (sum_coords (n_atoms st) (segment (frames st) (skip st) i))
              (i `mod` skip st + 1)]> (table_upto st m)
      else table_upto st m
  end.

(** What holds of a run started in [st0] once the table has seen the
    first [m] frames and the running sum the first [n]: the configuration
    is untouched, the table, the reference and (once a frame has been
    seen) the running sum live in distinct objects, none of them the live
    buffer, and hold the values determined by the input. *)
Definition state_inv (st0 st : state) (m n : nat) : Prop :=
  frames st = frames st0 /\ ts st = ts st0 /\ n_atoms st = n_atoms st0 /\
  skip st = skip st0 /\ reference_frame st = reference_frame st0 /\
  exists lt lr : loc,
    trmsf st = Some lt /\ reference_positions st = Some lr /\
    lt <> ts st /\ lr <> ts st /\ lt <> lr /\
    is_Some (heap st !! ts st) /\
    heap st !! lt = Some (Table (table_upto st0 m)) /\
    heap st !! lr = Some (Coords (reference_of st0)) /\
    (n <> 0%nat -> exists la : loc,
       avg_coordinates st = Some la /\
       la <> ts st /\ la <> lt /\ la <> lr /\
       heap st !! la =
         Some (Coords (sum_coords (n_atoms st0)
                 (segment (frames st0) (skip st0) (Z.of_nat n - 1)))) /\
       seg_length st = Some ((Z.of_nat n - 1) `mod` skip st0 + 1)).

(** The invariant of the frame loop after [n] frames. *)
Definition loop_inv (st0 st : state) (n : nat) : Prop := state_inv st0 st n n.

(** The two halves of [_single_frame], for reasoning: folding the
    current frame into the running sum, and finalising the segment. *)
Definition accumulate (st : state) : result state :=
  let frame_index := _frame_index st `mod` skip st in
  let st :=
    if frame_index =? 0 then
      let '(la, st) := alloc (Coords (np.zeros3 (n_atoms st))) st in
      set_seg_length 0 (set_avg_coordinates la st)
    else st in
  la ← attr (avg_coordinates st);
  acc ← load_coords la st;
  pos ← trajectory.positions st;
  acc ← np.add acc pos;
  let st := store la (Coords acc) st in
  n ← attr (seg_length st);
  Ok (set_seg_length (n + 1) st).

Definition finalise (st : state) : result state :=
  if closes st then
    la ← attr (avg_coordinates st);
    acc ← load_coords la st;
    n ← attr (seg_length st);
    let avg := np.div acc (IZR n) in
    lr ← attr (reference_positions st);
    ref ← load_coords lr st;
    diff ← np.sub ref avg;
    let rmsf := np.sqrt (np.sum_axis1 (np.square diff)) in
    lt ← attr (trmsf st);
    t ← load_table lt st;
    t ← np.setitem t (_frame_index st `div` skip st) rmsf;
    Ok (store lt (Table t) st)
  else Ok st.

(** ** Operations after the prepare phase

    What can happen to the store once the reference has been captured:
    the Frame Source loads some frame into its live buffer, the live
    buffer is overwritten with arbitrary data, the per-frame phase runs
    at some index, or the conclude phase runs. *)
Inductive action :=
  | Seek (i : Z)
  | BufferWrite (c : coords)
  | SingleFrame (i : Z)
  | Conclude.

Definition perform (a : action) (st : state) : result state :=
  match a with
  | Seek i => trajectory.getitem i st
  | BufferWrite c => Ok (store (ts st) (Coords c) st)
  | SingleFrame i => _single_frame (set_frame_index i st)
  | Conclude => _conclude st
  end.

Fixpoint perform_all (acts : list action) (st : state) : result state :=
  match acts with
  | [] => Ok st
  | a :: acts => st ← perform a st; perform_all acts st
  end.

(** The operations the driver performs between the prepare and the
    conclude phase when it visits the frames [idx]. *)
Definition driver_actions (idx : list nat) : list action :=
  flat_map (fun i => [Seek (Z.of_nat i); SingleFrame (Z.of_nat i)]) idx.

(** The reference lives at [lr], holds [c], and no other name of the
    analysis or of the Frame Source refers to that object. *)
Definition ref_inv (lr : loc) (c : coords) (st : state) : Prop :=
  reference_positions st = Some lr /\
  heap st !! lr = Some (Coords c) /\
  ts st <> lr /\ avg_coordinates st <> Some lr /\ trmsf st <> Some lr.

(** A table with [n] rows of [m] entries each. *)
Definition shape (n m : nat) (t : table) : Prop :=
  length t = n /\ Forall (fun r => length r = m) t.

(** ** The scenario of the specification

    Two particles, four frames, stride two, reference frame zero; only
    particle 0 moves, and only in frame 1. *)

Definition at_origin : vec3 := V3 0 0 0.

Definition scenario_frames : list coords :=
  [ [at_origin; at_origin];
    [V3 2 0 0; at_origin];
    [at_origin; at_origin];
    [at_origin; at_origin] ].

Definition scenario : state :=
  __init__ {[1%positive := Coords []]} scenario_frames 1%positive 2 2 0.

(** Operations interleaved with overwrites of the live buffer. *)
Definition scenario_actions : list action :=
  [ BufferWrite [V3 5 5 5; V3 5 5 5];
    Seek 0; SingleFrame 0;
    BufferWrite [V3 7 7 7; V3 7 7 7];
    Seek 1; SingleFrame 1;
    Seek 3 ].

(** An empty particle set; a reference frame counted from the end. *)
Definition empty_group : state :=
  __init__ {[1%positive := Coords []]} [[]] 1%positive 0 1 0.

Definition from_the_end : state :=
  __init__ {[1%positive := Coords []]}
           [[at_origin]; [V3 2 0 0]] 1%positive 1 1 (-1).

(** ** The conclude check on binary64 entries

    The table is a float64 array.  An exact real is either at least zero
    or negative; a binary64 number can also be NaN, which compares false
    with everything, so [x >= 0] fails for it although it is not
    negative. *)
Module ieee.

(** [(t >= 0).all()] *)
Definition all_ge0 (t : list (list PrimFloat.float)) : bool :=
  forallb (forallb (fun x => PrimFloat.leb PrimFloat.zero x)) t.

(** [_conclude], as a function of the table it scans. *)
Definition _conclude (t : list (list PrimFloat.float))
    : result (list (list PrimFloat.float)) :=
  if all_ge0 t then Ok t else Raise ValueError.

(** [x < 0] *)
Definition negative (x : PrimFloat.float) : bool :=
  PrimFloat.ltb x PrimFloat.zero.

End ieee.

(** ** Beyond valid configurations *)

(** The number of rows [_prepare] allocates. *)
Definition n_rows (st : state) : nat :=
  Z.to_nat ((trajectory.len st + Z.abs (skip st) - 1) `div` Z.abs (skip st)).

(** What the Frame Source guarantees: every frame holds [n_atoms]
    positions and the live buffer exists. *)
Definition source_ok (st : state) : Prop :=
  Forall (fun fr => length fr = n_atoms st) (frames st) /\
  is_Some (heap st !! ts st).

(** The configurations the slicing and indexing of [_prepare] let
    through: a non-zero stride and a reference index in [[-F, F)]. *)
Definition accepted (st : state) : Prop :=
  skip st <> 0 /\
  - trajectory.len st <= reference_frame st < trajectory.len st.

(** The shape-level counterpart of [state_inv], for any accepted
    configuration: where the objects live, the shape and sign of the
    table, and that the table is still all zeros as long as no segment has
    closed. *)
Definition weak_inv (st0 st : state) (m n : nat) : Prop :=
  frames st = frames st0 /\ ts st = ts st0 /\ n_atoms st = n_atoms st0 /\
  skip st = skip st0 /\ reference_frame st = reference_frame st0 /\
  exists (lt lr : loc) (t : table) (ref : coords),
    trmsf st = Some lt /\ reference_positions st = Some lr /\
    lt <> ts st /\ lr <> ts st /\ lt <> lr /\
    is_Some (heap st !! ts st) /\
    heap st !! lt = Some (Table t) /\
    shape (n_rows st0) (n_atoms st0) t /\
    Forall (Forall (fun x => (0 <= x)%R)) t /\
    ((forall j : nat, (j < m)%nat -> closes_at st0 (Z.of_nat j) = false) ->
       t = np.zeros (n_rows st0) (n_atoms st0)) /\
    ((forall j : nat, (S j < m)%nat -> closes_at st0 (Z.of_nat j) = false) ->
       exists (k : nat) (r : list R),
         t = <[k := r]> (np.zeros (n_rows st0) (n_atoms st0))) /\
    heap st !! lr = Some (Coords ref) /\ length ref = n_atoms st0 /\
    (n <> 0%nat -> exists (la : loc) (acc : coords) (z : Z),
       avg_coordinates st = Some la /\
       la <> ts st /\ la <> lt /\ la <> lr /\
       heap st !! la = Some (Coords acc) /\ length acc = n_atoms st0 /\
       seg_length st = Some z).

(** The base class's [run(stop=n)]: only the first [n] frames are
    visited. *)
Definition run_stop (n : nat) (st : state) : result state :=
  st ← run_upto n st;
  st ← trajectory.rewind st;
  _conclude st.

(** Euclidean distance between two positions. *)
Definition distance (a b : vec3) : R :=
  sqrt ((vx a - vx b) * (vx a - vx b) + (vy a - vy b) * (vy a - vy b)
        + (vz a - vz b) * (vz a - vz b)).

(** A position scaled by a factor. *)
Definition vscale (c : R) (v : vec3) : vec3 :=
  V3 (c * vx v) (c * vy v) (c * vz v).

(** A negative stride. *)
Definition backwards : state :=
  __init__ {[1%positive := Coords []]}
           [[at_origin]; [V3 2 0 0]] 1%positive 1 (-1) 0.

(** The scenario with an array object of the caller's in the store. *)
Definition scenario_with_guest : state :=
  __init__ {[1%positive := Coords []; 5%positive := Table [[7%R]]]}
           scenario_frames 1%positive 2 2 0.

(** That scenario once prepared and with frame 0 loaded. *)
Definition guest_frame0 : state :=
  State {[1%positive := Coords [at_origin; at_origin];
          2%positive := Table [[0%R; 0%R]; [0%R; 0%R]];
          3%positive := Coords [at_origin; at_origin];
          5%positive := Table [[7%R]]]}
        scenario_frames 1%positive 2 2 0 0 None None
        (Some 3%positive) (Some 2%positive).

(** The same analysis on a trajectory moved as a whole by [d]. *)
Definition translate (d : vec3) (st : state) : state :=
  State (heap st) (map (map (np.vadd d)) (frames st)) (ts st) (n_atoms st)
        (skip st) (reference_frame st) (_frame_index st)
        (avg_coordinates st) (seg_length st) (reference_positions st)
        (trmsf st).

(** The same object with another [reference_frame]. *)
Definition with_reference (r : Z) (st : state) : state :=
  State (heap st) (frames st) (ts st) (n_atoms st) (skip st) r
        (_frame_index st) (avg_coordinates st) (seg_length st)
        (reference_positions st) (trmsf st).

(** A result with its value, if any, transformed. *)
Definition result_map {A B} (g : A -> B) (r : result A) : result B :=
  match r with
  | Ok a => Ok (g a)
  | Raise e => Raise e
  end.

(** ** Arithmetic of segments *)

Lemma ceil_div_bounds (a b : Z) :
  0 <= a -> 1 <= b ->
  (ceil_div a b - 1) * b < a <= ceil_div a b * b \/
  (a = 0 /\ ceil_div a b = 0).
Proof.
  intros Ha Hb. unfold ceil_div.
  destruct (Z.eqb_spec (a `mod` b) 0) as [E|E];
    Z.div_mod_to_equations; nia.
Qed.

Lemma len_sliced_ceil (a b : Z) :
  0 <= a -> 1 <= b -> (a + Z.abs b - 1) `div` Z.abs b = ceil_div a b.
Proof.
  intros Ha Hb. rewrite Z.abs_eq by lia. unfold ceil_div.
  destruct (Z.eqb_spec (a `mod` b) 0) as [E|E];
    Z.div_mod_to_equations; nia.
Qed.

Lemma seg_num_lt (F K i : Z) :
  1 <= K -> 0 <= i < F -> 0 <= i `div` K < ceil_div F K.
Proof.
  intros HK Hi. unfold ceil_div.
  destruct (Z.eqb_spec (F `mod` K) 0) as [E|E];
    Z.div_mod_to_equations; nia.
Qed.

Lemma mod_succ_nonzero (K i : Z) :
  1 <= K -> 1 <= i -> i `mod` K <> 0 ->
  i `div` K = (i - 1) `div` K /\ i `mod` K = (i - 1) `mod` K + 1.
Proof.
  intros HK Hi Hm.
  pose proof (Z.div_mod i K ltac:(lia)) as E.
  pose proof (Z.mod_pos_bound i K ltac:(lia)) as B.
  assert (Hq : (i - 1) `div` K = i `div` K).
  { symmetry. apply (Z.div_unique_pos _ _ _ (i `mod` K - 1)); lia. }
  assert (Hr : (i - 1) `mod` K = i `mod` K - 1).
  { symmetry. apply (Z.mod_unique_pos _ _ (i `div` K)); lia. }
  lia.
Qed.

Lemma mod_succ_zero (K i : Z) :
  1 <= K -> 0 <= i -> i `mod` K = 0 -> K * (i `div` K) = i.
Proof. intros. Z.div_mod_to_equations; nia. Qed.

(** ** Array lemmas *)

Lemma vadd_comm (a b : vec3) : np.vadd a b = np.vadd b a.
Proof. unfold np.vadd. f_equal; lra. Qed.

Lemma vadd_assoc (a b c : vec3) :
  np.vadd a (np.vadd b c) = np.vadd (np.vadd a b) c.
Proof. unfold np.vadd. cbn [vx vy vz]. f_equal; lra. Qed.

Lemma zip_vadd_comm (a b : coords) :
  zip_with np.vadd a b = zip_with np.vadd b a.
Proof.
  revert b. induction a as [|x a IH]; intros [|y b]; cbn; [done..|].
  by rewrite vadd_comm, IH.
Qed.

Lemma zip_vadd_assoc (a b c : coords) :
  zip_with np.vadd a (zip_with np.vadd b c)
  = zip_with np.vadd (zip_with np.vadd a b) c.
Proof.
  revert b c. induction a as [|x a IH]; intros [|y b] [|z c]; cbn; [done..|].
  by rewrite vadd_assoc, IH.
Qed.

Lemma length_zeros3 (n : nat) : length (np.zeros3 n) = n.
Proof. apply length_replicate. Qed.

Lemma length_sum_coords (P : nat) (fs : list coords) :
  Forall (fun fr => length fr = P) fs -> length (sum_coords P fs) = P.
Proof.
  induction 1 as [|f fs Hf _ IH]; cbn.
  - apply length_zeros3.
  - rewrite length_zip_with, IH, Hf. lia.
Qed.

Lemma sum_coords_snoc (P : nat) (fs : list coords) (f : coords) :
  sum_coords P (fs ++ [f]) = zip_with np.vadd (sum_coords P fs) f.
Proof.
  induction fs as [|g fs IH]; cbn.
  - apply zip_vadd_comm.
  - by rewrite IH, zip_vadd_assoc.
Qed.

Lemma length_rmsf_row (ref acc : coords) (n : Z) :
  length ref = length acc -> length (rmsf_row ref acc n) = length ref.
Proof.
  intros E. unfold rmsf_row, np.sqrt, np.sum_axis1, np.square, np.div.
  rewrite !length_map, length_zip_with, length_map. lia.
Qed.

Lemma rmsf_row_nonneg (ref acc : coords) (n : Z) :
  Forall (fun x => (0 <= x)%R) (rmsf_row ref acc n).
Proof.
  unfold rmsf_row, np.sqrt. apply Forall_forall. intros x Hx.
  apply list_elem_of_In, in_map_iff in Hx as (y & <- & _). apply sqrt_pos.
Qed.

(** ** Segments of the trajectory *)

Lemma segment_shape (traj : list coords) (P : nat) (K i : Z) :
  Forall (fun fr => length fr = P) traj ->
  Forall (fun fr => length fr = P) (segment traj K i).
Proof. intros H. unfold segment. by apply Forall_take, Forall_drop. Qed.

Lemma segment_first (traj : list coords) (K i : Z) (f : coords) :
  1 <= K -> 0 <= i -> i `mod` K = 0 -> traj !! Z.to_nat i = Some f ->
  segment traj K i = [f].
Proof.
  intros HK Hi Hm Hf. unfold segment.
  rewrite Hm, (mod_succ_zero K i) by done.
  change (Z.to_nat (0 + 1)) with 1%nat.
  rewrite (take_S_r _ 0 f); [by rewrite take_0|].
  by rewrite lookup_drop, Nat.add_0_r.
Qed.

Lemma segment_next (traj : list coords) (K i : Z) (f : coords) :
  1 <= K -> 1 <= i -> i `mod` K <> 0 -> traj !! Z.to_nat i = Some f ->
  segment traj K i = segment traj K (i - 1) ++ [f].
Proof.
  intros HK Hi Hm Hf. unfold segment.
  destruct (mod_succ_nonzero K i HK Hi Hm) as [Hq Hr].
  rewrite <- Hq.
  pose proof (Z.mod_pos_bound (i - 1) K ltac:(lia)) as B.
  replace (Z.to_nat (i `mod` K + 1))
    with (S (Z.to_nat ((i - 1) `mod` K + 1))) by lia.
  apply take_S_r. rewrite lookup_drop, <- Hf. f_equal.
  pose proof (Z.div_mod i K ltac:(lia)) as E.
  pose proof (Z.div_pos i K ltac:(lia) ltac:(lia)). nia.
Qed.

(** ** Shape of the table *)

Lemma zeros_shape (n m : nat) : shape n m (np.zeros n m).
Proof.
  split; [apply length_replicate|].
  apply Forall_forall. intros r Hr. apply elem_of_replicate in Hr as [-> _].
  apply length_replicate.
Qed.

Lemma reference_of_length (st : state) :
  valid_config st -> length (reference_of st) = n_atoms st.
Proof.
  intros [_ _ HR Hsh _]. unfold reference_of, trajectory.len in *.
  destruct (frames st !! Z.to_nat (reference_frame st)) as [f|] eqn:E; cbn.
  - eapply Forall_lookup_1 in Hsh; eauto.
  - apply lookup_ge_None in E. lia.
Qed.

Lemma table_upto_shape (st : state) (n : nat) :
  valid_config st ->
  shape (Z.to_nat (ceil_div (trajectory.len st) (skip st))) (n_atoms st)
        (table_upto st n).
Proof.
  intros Hv. induction n as [|n [IHl IHr]]; cbn [table_upto].
  - apply zeros_shape.
  - destruct (closes_at st (Z.of_nat n)); [|done].
    split; [by rewrite length_insert|].
    apply Forall_insert; [done|].
    rewrite length_rmsf_row; rewrite reference_of_length by done; [done|].
    symmetry. apply length_sum_coords, segment_shape, Hv.
Qed.

(** ** The methods, step by step *)

Ltac fields :=
  cbn [heap frames ts n_atoms skip reference_frame _frame_index
       avg_coordinates seg_length reference_positions trmsf
       set_heap set_frame_index set_avg_coordinates set_seg_length
       set_reference_positions set_trmsf store alloc fst snd
       mbind result_bind attr] in *.

Lemma index_in_range (n : nat) (i : Z) :
  0 <= i < Z.of_nat n -> np.index n i = Ok (Z.to_nat i).
Proof. intros H. unfold np.index. by rewrite decide_True. Qed.

Lemma fresh_not_in (h : gmap loc ndarray) (l : loc) :
  is_Some (h !! l) -> fresh (dom h) <> l.
Proof.
  intros Hl E. apply elem_of_dom in Hl. rewrite <- E in Hl.
  by apply is_fresh in Hl.
Qed.

Lemma fresh_lookup (h : gmap loc ndarray) : h !! fresh (dom h) = None.
Proof. apply not_elem_of_dom, is_fresh. Qed.

Lemma prepare_spec (st : state) :
  valid_config st -> exists st', _prepare st = Ok st' /\ loop_inv st st' 0.
Proof.
  intros Hv. pose proof (reference_of_length st Hv) as Href.
  destruct Hv as [HP HK HR Hsh Hbuf].
  unfold reference_of in Href.
  destruct st as [h traj buf P K R fi avg sl rp tr].
  unfold trajectory.len in *. fields.
  destruct (traj !! Z.to_nat R) as [f|] eqn:Ef;
    [|apply lookup_ge_None in Ef; lia].
  unfold _prepare, trajectory.len_sliced, trajectory.getitem,
    trajectory.positions, load_coords, trajectory.len. fields.
  rewrite decide_False by lia. fields.
  rewrite index_in_range by lia. fields. rewrite Ef. fields.
  rewrite lookup_insert_eq. fields.
  eexists. split; [reflexivity|].
  unfold loop_inv, state_inv. fields. do 5 (split; [done|]).
  set (h1 := <[fresh (dom h) := _]> h).
  set (h2 := <[buf := _]> h1).
  exists (fresh (dom h)), (fresh (dom h2)).
  assert (Hb1 : is_Some (h1 !! buf)).
  { subst h1. rewrite lookup_insert_ne; [done|]. by apply fresh_not_in. }
  assert (Hb2 : is_Some (h2 !! buf)).
  { subst h2. rewrite lookup_insert_eq. eauto. }
  assert (Ht2 : h2 !! fresh (dom h) = Some (Table (table_upto
     (State h traj buf P K R fi avg sl rp tr) 0))).
  { subst h2 h1. rewrite lookup_insert_ne by (symmetry; by apply fresh_not_in).
    rewrite lookup_insert_eq. cbn [table_upto]. unfold trajectory.len. fields.
    by rewrite len_sliced_ceil by lia. }
  split; [done|]. split; [done|].
  split; [by apply fresh_not_in|].
  split; [by apply fresh_not_in|].
  split; [symmetry; apply fresh_not_in; rewrite Ht2; eauto|].
  split; [rewrite lookup_insert_ne by (by apply fresh_not_in); done|].
  split.
  { rewrite lookup_insert_ne; [done|]. apply fresh_not_in. rewrite Ht2. eauto. }
  split; [|done].
  rewrite lookup_insert_eq. unfold reference_of. fields. by rewrite Ef.
Qed.

Lemma single_frame_split (st : state) :
  _single_frame st =
  if decide (skip st = 0) then Raise ZeroDivisionError
  else accumulate st ≫= finalise.
Proof.
  unfold _single_frame, accumulate, finalise.
  destruct (decide (skip st = 0)); [done|].
  destruct (_frame_index st `mod` skip st =? 0); fields.
  - unfold trajectory.positions, load_coords. fields.
    rewrite lookup_insert_eq. fields.
    destruct (<[_ := _]> (heap st) !! ts st) as [[c|t]|]; fields; try done.
    destruct (np.add _ c); fields; done.
  - destruct (avg_coordinates st) as [la|] eqn:Ea; fields; [|done].
    unfold trajectory.positions, load_coords. fields.
    destruct (heap st !! la) as [[a|t]|]; fields; try done.
    destruct (heap st !! ts st) as [[c|t]|]; fields; try done.
    destruct (np.add a c); fields; [|done].
    destruct (seg_length st) eqn:En; fields; rewrite ?Ea, ?En; done.
Qed.

Lemma getitem_spec (st0 st : state) (m n i : nat) (f : coords) :
  state_inv st0 st m n -> frames st0 !! i = Some f ->
  exists st', trajectory.getitem (Z.of_nat i) st = Ok st' /\
    state_inv st0 st' m n /\ heap st' !! ts st' = Some (Coords f) /\
    _frame_index st' = _frame_index st.
Proof.
  intros (Hfr & Hts & HP & HK & HR & lt & lr & Ht & Hr & Hlt & Hlr & Hne &
          Hbuf & Htab & Href & Hacc) Hf.
  destruct st as [h traj buf P K R fi avg sl rp tr]. fields. subst.
  unfold trajectory.getitem. fields.
  rewrite index_in_range by (apply lookup_lt_Some in Hf; lia). fields.
  rewrite Nat2Z.id, Hf. eexists. split; [reflexivity|]. fields.
  split; [|by rewrite lookup_insert_eq].
  unfold state_inv. fields. do 5 (split; [done|]).
  exists lt, lr. do 5 (split; [done|]).
  split; [rewrite lookup_insert_eq; eauto|].
  split; [by rewrite lookup_insert_ne|].
  split; [by rewrite lookup_insert_ne|].
  intros Hn. destruct (Hacc Hn) as (la & ? & ? & ? & ? & ? & ?).
  exists la. rewrite lookup_insert_ne by done. done.
Qed.

Lemma add_same_length (a b : coords) :
  length a = length b -> np.add a b = Ok (zip_with np.vadd a b).
Proof. intros E. unfold np.add. by rewrite decide_True. Qed.

Lemma sub_same_length (a b : coords) :
  length a = length b -> np.sub a b = Ok (zip_with np.vsub a b).
Proof. intros E. unfold np.sub. by rewrite decide_True. Qed.

Lemma accumulate_spec (st0 st : state) (n : nat) (f : coords) :
  valid_config st0 -> state_inv st0 st n n ->
  frames st0 !! n = Some f -> heap st !! ts st = Some (Coords f) ->
  _frame_index st = Z.of_nat n ->
  exists st', accumulate st = Ok st' /\ state_inv st0 st' n (S n) /\
    _frame_index st' = Z.of_nat n.
Proof.
  intros Hv (Hfr & Hts & HP & HK & HR & lt & lr & Ht & Hr & Hlt & Hlr & Hne &
             Hbuf & Htab & Href & Hacc) Hf Hb Hi.
  assert (Hlen : length f = n_atoms st0).
  { destruct Hv as [_ _ _ Hsh _]. eapply Forall_lookup_1 in Hsh; eauto. }
  pose proof (valid_skip _ Hv) as HK1.
  destruct st as [h traj buf P K R fi avg sl rp tr]. fields. subst.
  unfold accumulate, trajectory.positions, load_coords. fields.
  replace (Z.of_nat (S n) - 1) with (Z.of_nat n) by lia.
  destruct (Z.eqb_spec (Z.of_nat n `mod` skip st0) 0) as [E|E]; fields.
  - set (la := fresh (dom h)).
    assert (la <> ts st0) by (apply fresh_not_in; eauto).
    assert (la <> lt) by (apply fresh_not_in; eauto).
    assert (la <> lr) by (apply fresh_not_in; eauto).
    rewrite lookup_insert_eq. fields.
    rewrite lookup_insert_ne, Hb by done. fields.
    rewrite add_same_length by (by rewrite length_zeros3). fields.
    eexists. split; [reflexivity|]. split; [|done].
    unfold state_inv. fields. do 5 (split; [done|]).
    exists lt, lr. do 5 (split; [done|]).
    rewrite !(lookup_insert_ne _ la) by done.
    do 3 (split; [done|]). intros _. exists la.
    rewrite lookup_insert_eq. do 4 (split; [done|]).
    replace (Z.of_nat (S n) - 1) with (Z.of_nat n) by lia.
    rewrite (segment_first _ _ _ f), E by (rewrite ?Nat2Z.id; done || lia).
    cbn [sum_coords]. by rewrite zip_vadd_comm.
  - assert (Hn : n <> 0%nat) by (intros ->; by apply E).
    destruct (Hacc Hn) as (la & Ha & ? & ? & ? & Hla & Hsl).
    subst avg sl. fields. rewrite Hla, Hb. fields.
    rewrite add_same_length
      by (rewrite Hlen; apply length_sum_coords, segment_shape, Hv).
    fields. eexists. split; [reflexivity|]. split; [|done].
    unfold state_inv. fields. do 5 (split; [done|]).
    exists lt, lr. do 5 (split; [done|]).
    rewrite !(lookup_insert_ne _ la) by done.
    do 3 (split; [done|]). intros _. exists la.
    rewrite lookup_insert_eq. do 4 (split; [done|]).
    replace (Z.of_nat (S n) - 1) with (Z.of_nat n) by lia.
    destruct (mod_succ_nonzero (skip st0) (Z.of_nat n)
                ltac:(lia) ltac:(lia) E) as [_ ->].
    rewrite (segment_next _ _ (Z.of_nat n) f)
      by (rewrite ?Nat2Z.id; done || lia).
    by rewrite sum_coords_snoc.
Qed.

Lemma closes_config (st0 st : state) (n : nat) :
  frames st = frames st0 -> skip st = skip st0 ->
  _frame_index st = Z.of_nat n -> closes st = closes_at st0 (Z.of_nat n).
Proof.
  intros Hf HK Hi. unfold closes_at, closes, trajectory.len. fields.
  by rewrite Hf, HK, Hi.
Qed.

Lemma finalise_spec (st0 st : state) (n : nat) :
  valid_config st0 -> state_inv st0 st n (S n) ->
  _frame_index st = Z.of_nat n -> (n < length (frames st0))%nat ->
  exists st', finalise st = Ok st' /\ state_inv st0 st' (S n) (S n) /\
    _frame_index st' = Z.of_nat n.
Proof.
  intros Hv (Hfr & Hts & HP & HK & HR & lt & lr & Ht & Hr & Hlt & Hlr & Hne &
             Hbuf & Htab & Href & Hacc) Hi Hn.
  destruct (Hacc ltac:(lia)) as (la & Ha & Hla1 & Hla2 & Hla3 & Hla & Hsl).
  clear Hacc. replace (Z.of_nat (S n) - 1) with (Z.of_nat n) in * by lia.
  pose proof (valid_skip _ Hv) as HK1.
  pose proof (table_upto_shape st0 n Hv) as [Hrows Hcols].
  pose proof (reference_of_length st0 Hv) as Hreflen.
  assert (Hsumlen : length (sum_coords (n_atoms st0)
             (segment (frames st0) (skip st0) (Z.of_nat n))) = n_atoms st0)
    by (apply length_sum_coords, segment_shape, Hv).
  unfold finalise. rewrite (closes_config st0 st n) by done.
  assert (Hstep : table_upto st0 (S n) =
    if closes_at st0 (Z.of_nat n) then
      <[Z.to_nat (Z.of_nat n `div` skip st0) :=
          rmsf_row (reference_of st0)
            (sum_coords (n_atoms st0)
               (segment (frames st0) (skip st0) (Z.of_nat n)))
            (Z.of_nat n `mod` skip st0 + 1)]> (table_upto st0 n)
    else table_upto st0 n) by reflexivity.
  destruct st as [h traj buf P K R fi avg sl rp tr]. fields. subst.
  destruct (closes_at st0 (Z.of_nat n)).
  - unfold load_coords, load_table. fields. rewrite Hla, Href. fields.
    rewrite sub_same_length
      by (unfold np.div; rewrite length_map; congruence).
    fields. rewrite Htab. fields.
    unfold np.setitem.
    assert (Hseg : 0 <= Z.of_nat n `div` skip st0
                   < Z.of_nat (length (table_upto st0 n))).
    { rewrite Hrows.
      pose proof (seg_num_lt (trajectory.len st0) (skip st0) (Z.of_nat n)
                    HK1 ltac:(unfold trajectory.len; lia)). lia. }
    rewrite index_in_range by done. fields.
    destruct (lookup_lt_is_Some_2 (table_upto st0 n)
                (Z.to_nat (Z.of_nat n `div` skip st0)) ltac:(lia))
      as [old Hold].
    rewrite Hold.
    change (np.sqrt _) with
      (rmsf_row (reference_of st0)
         (sum_coords (n_atoms st0)
            (segment (frames st0) (skip st0) (Z.of_nat n)))
         (Z.of_nat n `mod` skip st0 + 1)).
    rewrite decide_True.
    2:{ rewrite length_rmsf_row by congruence.
        rewrite Hreflen. eapply Forall_lookup_1 in Hcols; eauto. }
    fields. eexists. split; [reflexivity|]. split; [|done].
    unfold state_inv. fields. do 5 (split; [done|]).
    exists lt, lr. do 5 (split; [done|]).
    rewrite lookup_insert_eq, !(lookup_insert_ne _ lt) by done.
    rewrite Hstep. do 3 (split; [done|]). intros _. exists la.
    rewrite !(lookup_insert_ne _ lt) by done.
    replace (Z.of_nat (S n) - 1) with (Z.of_nat n) by lia. done.
  - eexists. split; [reflexivity|]. split; [|done].
    unfold state_inv. fields. do 5 (split; [done|]).
    exists lt, lr. rewrite Hstep. do 8 (split; [done|]). intros _. exists la.
    replace (Z.of_nat (S n) - 1) with (Z.of_nat n) by lia. done.
Qed.

Lemma visit_spec (st0 st : state) (n : nat) :
  valid_config st0 -> loop_inv st0 st n -> (n < length (frames st0))%nat ->
  exists st', visit st n = Ok st' /\ loop_inv st0 st' (S n) /\
    _frame_index st' = Z.of_nat n.
Proof.
  intros Hv Hinv Hn. unfold loop_inv in *.
  destruct (lookup_lt_is_Some_2 _ _ Hn) as [f Hf].
  destruct (getitem_spec st0 st n n n f Hinv Hf) as (st1 & E1 & I1 & B1 & _).
  unfold visit. rewrite E1. cbn [mbind result_bind].
  rewrite single_frame_split.
  assert (Hcfg : skip (set_frame_index (Z.of_nat n) st1) = skip st0)
    by (destruct I1 as (_ & _ & _ & HK & _); done).
  rewrite decide_False by (rewrite Hcfg; pose proof (valid_skip _ Hv); lia).
  destruct (accumulate_spec st0 (set_frame_index (Z.of_nat n) st1) n f)
    as (st2 & E2 & I2 & F2); try done.
  rewrite E2. cbn [mbind result_bind].
  by apply finalise_spec.
Qed.

(** ** The frame loop *)

Lemma frames_loop_app (l1 l2 : list nat) (st : state) :
  frames_loop (l1 ++ l2) st = frames_loop l1 st ≫= frames_loop l2.
Proof.
  revert st. induction l1 as [|i l1 IH]; intros st; cbn; [done|].
  destruct (visit st i); cbn; [apply IH|done].
Qed.

Lemma run_upto_S (n : nat) (st : state) :
  run_upto (S n) st = run_upto n st ≫= (fun st' => visit st' n).
Proof.
  unfold run_upto. rewrite seq_S.
  destruct (_prepare st) as [st1|]; cbn [mbind result_bind]; [|done].
  rewrite frames_loop_app.
  destruct (frames_loop (seq 0 n) st1); cbn; [|done].
  by destruct (visit _ n).
Qed.

Lemma run_upto_spec (st : state) (n : nat) :
  valid_config st -> (n <= length (frames st))%nat ->
  exists st', run_upto n st = Ok st' /\ loop_inv st st' n /\
    (n <> 0%nat -> _frame_index st' = Z.of_nat n - 1).
Proof.
  intros Hv. induction n as [|n IH]; intros Hn.
  - destruct (prepare_spec st Hv) as (st1 & E & I).
    exists st1. unfold run_upto. rewrite E. done.
  - destruct IH as (st1 & E & I & _); [lia|].
    destruct (visit_spec st st1 n Hv I ltac:(lia)) as (st2 & E2 & I2 & F2).
    exists st2. rewrite run_upto_S, E. cbn. split; [done|]. split; [done|].
    intros _. rewrite F2. lia.
Qed.

Lemma loop_inv_results (st0 st : state) (n : nat) :
  loop_inv st0 st n -> results_trmsf st = Some (table_upto st0 n).
Proof.
  intros (_ & _ & _ & _ & _ & lt & lr & Ht & _ & _ & _ & _ & _ & Htab & _).
  unfold results_trmsf. by rewrite Ht, Htab.
Qed.

Lemma loop_inv_reference (st0 st : state) (n : nat) :
  loop_inv st0 st n -> reference_value st = Some (reference_of st0).
Proof.
  intros (_ & _ & _ & _ & _ & lt & lr & _ & Hr & _ & _ & _ & _ & _ & Href & _).
  unfold reference_value. by rewrite Hr, Href.
Qed.

Lemma loop_inv_running (st0 st : state) (n : nat) :
  loop_inv st0 st (S n) ->
  avg_value st = Some (sum_coords (n_atoms st0)
                         (segment (frames st0) (skip st0) (Z.of_nat n))) /\
  seg_length st = Some (Z.of_nat n `mod` skip st0 + 1).
Proof.
  intros (_ & _ & _ & _ & _ & lt & lr & _ & _ & _ & _ & _ & _ & _ & _ & Hacc).
  destruct (Hacc ltac:(lia)) as (la & Ha & _ & _ & _ & Hla & Hsl).
  replace (Z.of_nat (S n) - 1) with (Z.of_nat n) in * by lia.
  unfold avg_value. by rewrite Ha, Hla.
Qed.

(** ** Non-negativity *)

Lemma forallb_iff_Forall {A} (f : A -> bool) (Q : A -> Prop) (l : list A) :
  (forall x, f x = true <-> Q x) -> forallb f l = true <-> Forall Q l.
Proof.
  intros Hf. induction l as [|x l IH]; cbn.
  - split; [constructor|done].
  - rewrite andb_true_iff, Forall_cons, Hf, IH. done.
Qed.

Lemma all_ge0_Forall (t : table) :
  np.all_ge0 t = true <-> Forall (Forall (fun x => (0 <= x)%R)) t.
Proof.
  unfold np.all_ge0. apply forallb_iff_Forall. intros r.
  apply forallb_iff_Forall. intros x. apply bool_decide_eq_true.
Qed.

Lemma table_upto_nonneg (st : state) (n : nat) :
  Forall (Forall (fun x => (0 <= x)%R)) (table_upto st n).
Proof.
  induction n as [|n IH]; cbn [table_upto].
  - unfold np.zeros. apply Forall_forall. intros r Hr.
    apply elem_of_replicate in Hr as [-> _].
    apply Forall_forall. intros x Hx.
    apply elem_of_replicate in Hx as [-> _]. lra.
  - destruct (closes_at st (Z.of_nat n)); [|done].
    destruct (decide (Z.to_nat (Z.of_nat n `div` skip st)
                      < length (table_upto st n))%nat).
    + apply Forall_insert; [done|apply rmsf_row_nonneg].
    + by rewrite list_insert_ge by lia.
Qed.

Lemma rewind_spec (st0 st : state) (m n : nat) :
  valid_config st0 -> state_inv st0 st m n ->
  exists st', trajectory.rewind st = Ok st' /\ state_inv st0 st' m n.
Proof.
  intros Hv I.
  assert (HF : (0 < length (frames st0))%nat)
    by (destruct Hv as [_ _ HR _ _]; unfold trajectory.len in HR; lia).
  destruct (lookup_lt_is_Some_2 _ _ HF) as [f Hf].
  destruct (getitem_spec st0 st m n 0 f I Hf) as (st' & E & I' & _).
  exists st'. split; [exact E|done].
Qed.

Lemma conclude_inv (st0 st : state) (n : nat) :
  loop_inv st0 st n -> _conclude st = Ok st.
Proof.
  intros I. pose proof (loop_inv_results _ _ _ I) as Hres.
  unfold _conclude, load_table. unfold results_trmsf in Hres.
  destruct (trmsf st) as [lt|]; [|done]. cbn.
  destruct (heap st !! lt) as [[c|t]|]; try done. cbn.
  injection Hres as ->.
  by rewrite (proj2 (all_ge0_Forall _) (table_upto_nonneg st0 _)).
Qed.

Lemma run_spec (st : state) :
  valid_config st ->
  exists st', run st = Ok st' /\ loop_inv st st' (length (frames st)).
Proof.
  intros Hv.
  destruct (run_upto_spec st (length (frames st)) Hv ltac:(lia))
    as (st1 & E & I & _).
  destruct (rewind_spec st st1 _ _ Hv I) as (st2 & E2 & I2).
  exists st2. unfold run. rewrite E. cbn [mbind result_bind].
  rewrite E2. cbn [mbind result_bind].
  split; [by apply (conclude_inv st st2 (length (frames st)))|done].
Qed.

Ltac valid_by_computation :=
  split; unfold trajectory.len; cbn;
  [ lia | lia | lia | repeat constructor
  | rewrite lookup_singleton_eq; eauto ].

(** ** Properties of a run *)

(** C3: for every valid configuration the Result Table of a completed
    run has exactly ceil(F/K) rows and exactly P columns. *)
Theorem C3_table_shape (st : state) :
  valid_config st ->
  exists st' t, run st = Ok st' /\ results_trmsf st' = Some t /\
    Z.of_nat (length t) = ceil_div (trajectory.len st) (skip st) /\
    Forall (fun r => length r = n_atoms st) t.
Proof.
  intros Hv. destruct (run_spec st Hv) as (st' & E & I).
  exists st', (table_upto st (length (frames st))).
  destruct (table_upto_shape st (length (frames st)) Hv) as [Hr Hc].
  split; [done|]. split; [by eapply loop_inv_results|]. split; [|done].
  rewrite Hr. apply Z2Nat.id.
  pose proof (seg_num_lt (trajectory.len st) (skip st) 0 (valid_skip _ Hv)
                ltac:(pose proof (valid_reference _ Hv); lia)). lia.
Qed.

Lemma C3_table_shape_witness :
  valid_config scenario /\
  exists st' t, run scenario = Ok st' /\ results_trmsf st' = Some t /\
    Z.of_nat (length t) = ceil_div (trajectory.len scenario) (skip scenario) /\
    Forall (fun r => length r = n_atoms scenario) t.
Proof.
  assert (Hv : valid_config scenario) by valid_by_computation.
  split; [exact Hv | exact (C3_table_shape scenario Hv)].
Defined.

(** C5: for every valid configuration and every position data, the run
    completes (the negative-entry branch of the conclude phase is not
    taken) and every entry of the Result Table is non-negative. *)
Theorem C5_entries_nonnegative (st : state) :
  valid_config st ->
  exists st' t, run st = Ok st' /\ results_trmsf st' = Some t /\
    Forall (Forall (fun x => (0 <= x)%R)) t.
Proof.
  intros Hv. destruct (run_spec st Hv) as (st' & E & I).
  exists st', (table_upto st (length (frames st))).
  split; [done|]. split; [by eapply loop_inv_results|].
  apply table_upto_nonneg.
Qed.

Lemma C5_entries_nonnegative_witness :
  valid_config scenario /\
  exists st' t, run scenario = Ok st' /\ results_trmsf st' = Some t /\
    Forall (Forall (fun x => (0 <= x)%R)) t.
Proof.
  assert (Hv : valid_config scenario) by valid_by_computation.
  split; [exact Hv | exact (C5_entries_nonnegative scenario Hv)].
Defined.

(** ** The conclude phase on binary64 entries *)

Lemma forallb_false_iff {A} (f : A -> bool) (l : list A) :
  forallb f l = false <-> exists x, x ∈ l /\ f x = false.
Proof.
  induction l as [|y l IH]; cbn.
  - split; [done|]. intros (x & Hx & _). by apply elem_of_nil in Hx.
  - rewrite andb_false_iff, IH. split.
    + intros [Hy|(x & Hx & Hf)].
      * exists y. split; [apply elem_of_cons; by left|done].
      * exists x. split; [apply elem_of_cons; by right|done].
    + intros (x & Hx & Hf). apply elem_of_cons in Hx as [->|Hx].
      * by left.
      * right. by exists x.
Qed.

Lemma compare_finite_refl (s : bool) (m : positive) (e : Z) :
  SpecFloat.SFcompare (SpecFloat.S754_finite s m e)
                      (SpecFloat.S754_finite s m e) = Some Eq.
Proof.
  cbn. destruct s;
    rewrite Z.compare_refl, ?Pos.compare_cont_refl, ?Pos.compare_refl;
    reflexivity.
Qed.

(** An entry fails [x >= 0] exactly when it is negative or NaN. *)
Lemma ge0_fails_iff (x : PrimFloat.float) :
  PrimFloat.leb PrimFloat.zero x = false <->
  ieee.negative x = true \/ PrimFloat.is_nan x = true.
Proof.
  unfold ieee.negative, PrimFloat.is_nan.
  rewrite FloatAxioms.leb_spec, FloatAxioms.ltb_spec, FloatAxioms.eqb_spec.
  change (FloatOps.Prim2SF PrimFloat.zero) with (SpecFloat.S754_zero false).
  unfold SpecFloat.SFleb, SpecFloat.SFltb, SpecFloat.SFeqb.
  destruct (FloatOps.Prim2SF x) as [s|s| |s m e].
  - cbn. intuition discriminate.
  - destruct s; cbn; intuition discriminate.
  - cbn. intuition discriminate.
  - rewrite compare_finite_refl. destruct s; cbn; intuition discriminate.
Qed.

(** C6, as stated, fails: on a table whose only entry is NaN the conclude
    phase raises although no entry is negative. *)
Lemma C6_nan_entry_counterexample :
  ieee._conclude [[PrimFloat.nan]] = Raise ValueError /\
  ~ (exists r x, r ∈ [[PrimFloat.nan]] /\ x ∈ r /\ ieee.negative x = true).
Proof.
  split; [reflexivity|].
  intros (r & x & Hr & Hx & Hneg).
  apply list_elem_of_singleton in Hr. subst r.
  apply list_elem_of_singleton in Hx. subst x.
  vm_compute in Hneg. discriminate Hneg.
Qed.

(** C6, amended: the conclude phase raises the numerical-validity error
    exactly when some entry of the Result Table fails [x >= 0], that is,
    is negative or NaN; when no entry is negative or NaN it returns, and
    the table is the final output. *)
Theorem C6_conclude_raises_iff (t : list (list PrimFloat.float)) :
  (ieee._conclude t = Raise ValueError <->
     exists r x, r ∈ t /\ x ∈ r /\
       (ieee.negative x = true \/ PrimFloat.is_nan x = true)) /\
  ((forall r x, r ∈ t -> x ∈ r ->
      ieee.negative x = false /\ PrimFloat.is_nan x = false) ->
   ieee._conclude t = Ok t).
Proof.
  assert (Hfail : ieee.all_ge0 t = false <->
    exists r x, r ∈ t /\ x ∈ r /\
      (ieee.negative x = true \/ PrimFloat.is_nan x = true)).
  { unfold ieee.all_ge0. rewrite forallb_false_iff. split.
    - intros (r & Hr & Hf). apply forallb_false_iff in Hf as (x & Hx & Hf).
      exists r, x. do 2 (split; [done|]). by apply ge0_fails_iff.
    - intros (r & x & Hr & Hx & Hf). exists r. split; [done|].
      apply forallb_false_iff. exists x. split; [done|].
      by apply ge0_fails_iff. }
  unfold ieee._conclude. destruct (ieee.all_ge0 t) eqn:Eall.
  - split; [split; [done|]|done].
    intros H. apply Hfail in H. discriminate H.
  - split; [split; [intros _; by apply Hfail|done]|].
    intros Hnone. destruct (proj1 Hfail eq_refl) as (r & x & Hr & Hx & Hf).
    destruct (Hnone r x Hr Hx) as [Hn Hnan].
    destruct Hf as [Hf|Hf]; congruence.
Qed.

(** ** Where segments close *)

Lemma closes_at_unfold (st : state) (i : Z) :
  closes_at st i =
  (i `mod` skip st + 1 =? skip st) || (i =? trajectory.len st - 1).
Proof. reflexivity. Qed.

Lemma closes_at_true (st : state) (i : Z) :
  closes_at st i = true <->
  i `mod` skip st + 1 = skip st \/ i = trajectory.len st - 1.
Proof. rewrite closes_at_unfold, orb_true_iff, !Z.eqb_eq. done. Qed.

Lemma closes_unique (st : state) (i j : Z) :
  1 <= skip st -> 0 <= i < trajectory.len st -> 0 <= j < trajectory.len st ->
  closes_at st i = true -> closes_at st j = true ->
  i `div` skip st = j `div` skip st -> i = j.
Proof.
  intros HK Hi Hj Ci Cj E.
  apply closes_at_true in Ci. apply closes_at_true in Cj.
  pose proof (Z.div_mod i (skip st) ltac:(lia)) as Di.
  pose proof (Z.div_mod j (skip st) ltac:(lia)) as Dj.
  pose proof (Z.mod_pos_bound i (skip st) ltac:(lia)).
  pose proof (Z.mod_pos_bound j (skip st) ltac:(lia)).
  rewrite E in Di. lia.
Qed.

Lemma closes_exists (st : state) (s : Z) :
  1 <= skip st -> 0 <= s < ceil_div (trajectory.len st) (skip st) ->
  exists i, 0 <= i < trajectory.len st /\ i `div` skip st = s /\
    closes_at st i = true.
Proof.
  intros HK Hs.
  set (K := skip st) in *. set (F := trajectory.len st) in *.
  assert (HF : 0 <= F) by (subst F; unfold trajectory.len; lia).
  assert (Hlo : s * K < F).
  { unfold ceil_div in Hs.
    destruct (Z.eqb_spec (F `mod` K) 0);
      Z.div_mod_to_equations; nia. }
  destruct (decide (s * K + K - 1 < F)) as [Hfull|Hshort].
  - exists (s * K + K - 1). split; [nia|].
    assert (Hq : (s * K + K - 1) `div` K = s).
    { symmetry. apply (Z.div_unique_pos _ _ _ (K - 1)); lia. }
    assert (Hr : (s * K + K - 1) `mod` K = K - 1).
    { symmetry. apply (Z.mod_unique_pos _ _ s); lia. }
    split; [done|]. apply closes_at_true. left. fold K. lia.
  - exists (F - 1). split; [lia|]. split.
    + symmetry. apply (Z.div_unique_pos _ _ _ (F - 1 - s * K)); lia.
    + apply closes_at_true. right. done.
Qed.

Lemma last_segment (F K : Z) :
  1 <= K -> 1 <= F ->
  (F - 1) `div` K = ceil_div F K - 1 /\
  (F - 1) `mod` K + 1 = if F `mod` K =? 0 then K else F `mod` K.
Proof.
  intros HK HF. unfold ceil_div.
  pose proof (Z.div_mod F K ltac:(lia)) as DF.
  pose proof (Z.mod_pos_bound F K ltac:(lia)) as BF.
  destruct (Z.eqb_spec (F `mod` K) 0) as [E0|E0].
  - assert (Hq : (F - 1) `div` K = F `div` K - 1)
      by (symmetry; apply (Z.div_unique_pos _ _ _ (K - 1)); lia).
    assert (Hr : (F - 1) `mod` K = K - 1)
      by (symmetry; apply (Z.mod_unique_pos _ _ (F `div` K - 1)); lia).
    lia.
  - assert (Hq : (F - 1) `div` K = F `div` K)
      by (symmetry; apply (Z.div_unique_pos _ _ _ (F `mod` K - 1)); lia).
    assert (Hr : (F - 1) `mod` K = F `mod` K - 1)
      by (symmetry; apply (Z.mod_unique_pos _ _ (F `div` K)); lia).
    lia.
Qed.

Lemma full_segment_quotient (F K i : Z) :
  1 <= K -> 0 <= i < F -> i `mod` K + 1 = K -> i `div` K + 1 <= F `div` K.
Proof.
  intros HK Hi Hfull.
  pose proof (Z.div_mod i K ltac:(lia)) as Di.
  apply Z.div_le_lower_bound; lia.
Qed.

Lemma closing_length (st : state) (i : Z) :
  1 <= skip st -> 0 <= i < trajectory.len st -> closes_at st i = true ->
  i `mod` skip st + 1 =
    if decide (i `div` skip st < ceil_div (trajectory.len st) (skip st) - 1)
    then skip st
    else if trajectory.len st `mod` skip st =? 0 then skip st
         else trajectory.len st `mod` skip st.
Proof.
  intros HK Hi Hc. apply closes_at_true in Hc.
  set (K := skip st) in *. set (F := trajectory.len st) in *.
  destruct (last_segment F K HK ltac:(lia)) as [Lq Lr].
  destruct Hc as [Hc|Hc].
  - pose proof (full_segment_quotient F K i HK Hi Hc) as Hq.
    case_decide as Hd; [done|]. unfold ceil_div in *.
    destruct (Z.eqb_spec (F `mod` K) 0); lia.
  - subst i. rewrite Lq, Lr. case_decide; [lia|done].
Qed.

(** C4: for every valid configuration, when the segment closes at frame
    [i] the frame counter is K for every segment but the last; for the
    last it is K when K divides F and F mod K otherwise. *)
Theorem C4_counter_at_closure (st : state) (i : nat) :
  valid_config st -> (i < length (frames st))%nat ->
  closes_at st (Z.of_nat i) = true ->
  exists st', run_upto (S i) st = Ok st' /\
    seg_length st' = Some (
      if decide (Z.of_nat i `div` skip st
                 < ceil_div (trajectory.len st) (skip st) - 1)
      then skip st
      else if trajectory.len st `mod` skip st =? 0 then skip st
           else trajectory.len st `mod` skip st).
Proof.
  intros Hv Hi Hc.
  destruct (run_upto_spec st (S i) Hv ltac:(lia)) as (st' & E & I & _).
  exists st'. split; [done|].
  destruct (loop_inv_running _ _ _ I) as [_ ->]. f_equal.
  apply closing_length; [apply Hv|unfold trajectory.len; lia|done].
Qed.

Lemma C4_counter_at_closure_witness :
  valid_config scenario /\ (3 < length (frames scenario))%nat /\
  closes_at scenario (Z.of_nat 3) = true /\
  exists st', run_upto 4 scenario = Ok st' /\
    seg_length st' = Some (
      if decide (Z.of_nat 3 `div` skip scenario
                 < ceil_div (trajectory.len scenario) (skip scenario) - 1)
      then skip scenario
      else if trajectory.len scenario `mod` skip scenario =? 0
           then skip scenario
           else trajectory.len scenario `mod` skip scenario).
Proof.
  assert (Hv : valid_config scenario) by valid_by_computation.
  assert (Hi : (3 < length (frames scenario))%nat) by (cbn; lia).
  assert (Hc : closes_at scenario (Z.of_nat 3) = true) by reflexivity.
  split; [exact Hv|]. split; [exact Hi|]. split; [exact Hc|].
  exact (C4_counter_at_closure scenario 3 Hv Hi Hc).
Defined.

(** C10: for every valid configuration, once frame [i] has been
    processed the frame counter is (i mod K) + 1 and the running sum is
    the elementwise sum of the frames floor(i/K)*K .. i. *)
Theorem C10_running_state (st : state) (i : nat) :
  valid_config st -> (i < length (frames st))%nat ->
  exists st', run_upto (S i) st = Ok st' /\
    seg_length st' = Some (Z.of_nat i `mod` skip st + 1) /\
    avg_value st' =
      Some (sum_coords (n_atoms st) (segment (frames st) (skip st) (Z.of_nat i))).
Proof.
  intros Hv Hi.
  destruct (run_upto_spec st (S i) Hv ltac:(lia)) as (st' & E & I & _).
  exists st'. split; [done|].
  destruct (loop_inv_running _ _ _ I) as [-> ->]. done.
Qed.

Lemma C10_running_state_witness :
  valid_config scenario /\ (1 < length (frames scenario))%nat /\
  exists st', run_upto 2 scenario = Ok st' /\
    seg_length st' = Some (Z.of_nat 1 `mod` skip scenario + 1) /\
    avg_value st' =
      Some (sum_coords (n_atoms scenario)
              (segment (frames scenario) (skip scenario) (Z.of_nat 1))).
Proof.
  assert (Hv : valid_config scenario) by valid_by_computation.
  assert (Hi : (1 < length (frames scenario))%nat) by (cbn; lia).
  split; [exact Hv|]. split; [exact Hi|].
  exact (C10_running_state scenario 1 Hv Hi).
Defined.

(** [segment] is what its name says: [i mod K + 1] frames, the [j]-th of
    which is frame [K * floor(i/K) + j] of the trajectory. *)
Lemma segment_lookup (traj : list coords) (K i : Z) (j : nat) :
  1 <= K -> 0 <= i -> (Z.of_nat j <= i `mod` K) ->
  segment traj K i !! j = traj !! (Z.to_nat (K * (i `div` K)) + j)%nat.
Proof.
  intros HK Hi Hj. unfold segment.
  rewrite lookup_take_lt by lia. apply lookup_drop.
Qed.

Lemma segment_length (traj : list coords) (K i : Z) :
  1 <= K -> 0 <= i < Z.of_nat (length traj) ->
  Z.of_nat (length (segment traj K i)) = i `mod` K + 1.
Proof.
  intros HK Hi. unfold segment. rewrite length_take, length_drop.
  pose proof (Z.div_mod i K ltac:(lia)).
  pose proof (Z.mod_pos_bound i K ltac:(lia)).
  pose proof (Z.div_pos i K ltac:(lia) ltac:(lia)). nia.
Qed.

(** ** Rows of the table over time *)

Lemma table_upto_S (st : state) (n : nat) :
  table_upto st (S n) =
  if closes_at st (Z.of_nat n) then
    <[Z.to_nat (Z.of_nat n `div` skip st) :=
        rmsf_row (reference_of st)
          (sum_coords (n_atoms st) (segment (frames st) (skip st) (Z.of_nat n)))
          (Z.of_nat n `mod` skip st + 1)]> (table_upto st n)
  else table_upto st n.
Proof. reflexivity. Qed.

Lemma zeros_lookup (n m k : nat) :
  (k < n)%nat -> np.zeros n m !! k = Some (replicate m 0%R).
Proof. intros H. unfold np.zeros. by apply lookup_replicate_2. Qed.

(** Before its segment closes, a row still holds the initial zeros. *)
Lemma table_upto_row_before (st : state) (n : nat) (i : Z) :
  valid_config st -> 0 <= i < trajectory.len st ->
  closes_at st i = true -> Z.of_nat n <= i ->
  table_upto st n !! Z.to_nat (i `div` skip st)
  = Some (replicate (n_atoms st) 0%R).
Proof.
  intros Hv Hi Hc. pose proof (valid_skip _ Hv) as HK.
  pose proof (seg_num_lt _ _ _ HK Hi) as Hs.
  induction n as [|n IH]; intros Hn.
  - cbn [table_upto]. apply zeros_lookup. lia.
  - rewrite table_upto_S.
    destruct (closes_at st (Z.of_nat n)) eqn:Cn; [|apply IH; lia].
    rewrite list_lookup_insert_ne; [apply IH; lia|].
    intros E. apply Z2Nat.inj in E; [|apply Z.div_pos; lia..].
    apply closes_unique in E; try done; lia.
Qed.

(** From the frame at which its segment closes onwards, a row holds the
    fluctuations of that segment. *)
Lemma table_upto_row_closed (st : state) (n : nat) (i : Z) :
  valid_config st -> 0 <= i < Z.of_nat n ->
  (n <= length (frames st))%nat -> closes_at st i = true ->
  table_upto st n !! Z.to_nat (i `div` skip st)
  = Some (rmsf_row (reference_of st)
            (sum_coords (n_atoms st) (segment (frames st) (skip st) i))
            (i `mod` skip st + 1)).
Proof.
  intros Hv Hi Hn Hc. pose proof (valid_skip _ Hv) as HK.
  induction n as [|n IH]; [lia|].
  assert (HiF : 0 <= i < trajectory.len st) by (unfold trajectory.len; lia).
  pose proof (seg_num_lt _ _ _ HK HiF) as Hs.
  destruct (table_upto_shape st n Hv) as [Hrows _].
  rewrite table_upto_S.
  destruct (decide (i = Z.of_nat n)) as [->|Hne].
  - rewrite Hc. apply list_lookup_insert_eq. lia.
  - destruct (closes_at st (Z.of_nat n)) eqn:Cn; [|apply IH; lia].
    rewrite list_lookup_insert_ne; [apply IH; lia|].
    intros E. apply Z2Nat.inj in E; [|apply Z.div_pos; lia..].
    apply closes_unique in E; try done; unfold trajectory.len; lia.
Qed.

(** C7: for every valid configuration and every row [s] of the Result
    Table there is exactly one frame [i] at which [_single_frame] assigns
    to row [s], the frame at which segment [s] closes.  Every per-frame
    step changes the table by that assignment and by nothing else: the
    step at a closing frame [j] replaces row [j div K] by the fluctuations
    of the segment, any other step leaves the whole table as it is.  So
    row [s] holds its initial zeros up to frame [i] and the fluctuations
    of segment [s] after it and after every later frame. *)
Theorem C7_row_written_once (st : state) (s : Z) :
  valid_config st -> 0 <= s < ceil_div (trajectory.len st) (skip st) ->
  exists i : nat,
    (i < length (frames st))%nat /\
    written_row (set_frame_index (Z.of_nat i) st) = Some s /\
    (forall j : nat, (j < length (frames st))%nat ->
       written_row (set_frame_index (Z.of_nat j) st) = Some s -> j = i) /\
    (forall j : nat, (j < length (frames st))%nat ->
       exists (stj stj' : state) (t : table),
         run_upto j st = Ok stj /\ run_upto (S j) st = Ok stj' /\
         results_trmsf stj = Some t /\
         results_trmsf stj' =
           Some (match written_row (set_frame_index (Z.of_nat j) st) with
                 | Some k =>
                     <[Z.to_nat k :=
                         rmsf_row (reference_of st)
                           (sum_coords (n_atoms st)
                              (segment (frames st) (skip st) (Z.of_nat j)))
                           (Z.of_nat j `mod` skip st + 1)]> t
                 | None => t
                 end)) /\
    (forall j : nat, (j <= length (frames st))%nat ->
       exists stj, run_upto j st = Ok stj /\
         row s (results_trmsf stj) =
           Some (if decide (j <= i)%nat then replicate (n_atoms st) 0%R
                 else rmsf_row (reference_of st)
                        (sum_coords (n_atoms st)
                           (segment (frames st) (skip st) (Z.of_nat i)))
                        (Z.of_nat i `mod` skip st + 1))).
Proof.
  intros Hv Hs. pose proof (valid_skip _ Hv) as HK.
  destruct (closes_exists st s HK Hs) as (i & Hi & Hq & Hc).
  assert (Hwr : forall j : nat,
    written_row (set_frame_index (Z.of_nat j) st) =
    if closes_at st (Z.of_nat j) then Some (Z.of_nat j `div` skip st) else None)
    by reflexivity.
  exists (Z.to_nat i). unfold trajectory.len in Hi.
  split; [lia|]. rewrite Hwr, Z2Nat.id, Hc, Hq by lia. split; [done|]. split.
  { intros j Hj. rewrite Hwr.
    destruct (closes_at st (Z.of_nat j)) eqn:Cj; [|done].
    intros [= E]. rewrite <- Hq in E.
    apply closes_unique in E; try done; unfold trajectory.len; lia. }
  split.
  - intros j Hj.
    destruct (run_upto_spec st j Hv ltac:(lia)) as (stj & E & I & _).
    destruct (run_upto_spec st (S j) Hv ltac:(lia)) as (stj' & E' & I' & _).
    exists stj, stj', (table_upto st j). do 2 (split; [done|]).
    split; [by eapply loop_inv_results|].
    rewrite (loop_inv_results _ _ _ I'), table_upto_S, Hwr.
    by destruct (closes_at st (Z.of_nat j)).
  - intros j Hj.
    destruct (run_upto_spec st j Hv Hj) as (stj & E & I & _).
    exists stj. split; [done|].
    rewrite (loop_inv_results _ _ _ I). unfold row. cbn. rewrite <- Hq.
    case_decide.
    + apply table_upto_row_before; try done; unfold trajectory.len; lia.
    + apply table_upto_row_closed; try done; lia.
Qed.

Lemma C7_row_written_once_witness :
  valid_config scenario /\
  0 <= 0 < ceil_div (trajectory.len scenario) (skip scenario) /\
  exists i : nat,
    (i < length (frames scenario))%nat /\
    written_row (set_frame_index (Z.of_nat i) scenario) = Some 0 /\
    (forall j : nat, (j < length (frames scenario))%nat ->
       written_row (set_frame_index (Z.of_nat j) scenario) = Some 0 -> j = i) /\
    (forall j : nat, (j < length (frames scenario))%nat ->
       exists (stj stj' : state) (t : table),
         run_upto j scenario = Ok stj /\ run_upto (S j) scenario = Ok stj' /\
         results_trmsf stj = Some t /\
         results_trmsf stj' =
           Some (match written_row (set_frame_index (Z.of_nat j) scenario) with
                 | Some k =>
                     <[Z.to_nat k :=
                         rmsf_row (reference_of scenario)
                           (sum_coords (n_atoms scenario)
                              (segment (frames scenario) (skip scenario)
                                 (Z.of_nat j)))
                           (Z.of_nat j `mod` skip scenario + 1)]> t
                 | None => t
                 end)) /\
    (forall j : nat, (j <= length (frames scenario))%nat ->
       exists stj, run_upto j scenario = Ok stj /\
         row 0 (results_trmsf stj) =
           Some (if decide (j <= i)%nat
                 then replicate (n_atoms scenario) 0%R
                 else rmsf_row (reference_of scenario)
                        (sum_coords (n_atoms scenario)
                           (segment (frames scenario) (skip scenario)
                              (Z.of_nat i)))
                        (Z.of_nat i `mod` skip scenario + 1))).
Proof.
  assert (Hv : valid_config scenario) by valid_by_computation.
  assert (Hs : 0 <= 0 < ceil_div (trajectory.len scenario) (skip scenario))
    by (vm_compute; split; [discriminate|reflexivity]).
  split; [exact Hv|]. split; [exact Hs|].
  exact (C7_row_written_once scenario 0 Hv Hs).
Defined.

(** ** Comparing a frame with itself *)

Lemma rmsf_self_zero (f : coords) (P : nat) :
  length f = P -> rmsf_row f (sum_coords P [f]) 1 = replicate P 0%R.
Proof.
  revert P. induction f as [|v f IH]; intros P <-; [done|].
  specialize (IH (length f) eq_refl).
  unfold rmsf_row, np.sqrt, np.sum_axis1, np.square, np.div in *.
  cbn [sum_coords length] in *.
  change (np.zeros3 (S (length f))) with (np.vzero :: np.zeros3 (length f)).
  cbn [zip_with map replicate]. rewrite IH. f_equal.
  unfold np.vsquare, np.vsub, np.vdiv, np.vadd, np.vzero. cbn [vx vy vz].
  transitivity (sqrt 0); [f_equal; field|apply sqrt_0].
Qed.

(** C8: for every valid configuration with K = 1, if the positions at
    frame [j] equal those of the reference frame, row [j] of the Result
    Table of the completed run is all zeros. *)
Theorem C8_self_comparison_zero (st : state) (j : nat) (f : coords) :
  valid_config st -> skip st = 1 ->
  frames st !! j = Some f ->
  frames st !! Z.to_nat (reference_frame st) = Some f ->
  exists st', run st = Ok st' /\
    row (Z.of_nat j) (results_trmsf st') = Some (replicate (n_atoms st) 0%R).
Proof.
  intros Hv HK Hj HR. destruct (run_spec st Hv) as (st' & E & I).
  exists st'. split; [done|].
  rewrite (loop_inv_results _ _ _ I). unfold row. cbn.
  pose proof (lookup_lt_Some _ _ _ Hj) as Hlt.
  assert (Hlen : length f = n_atoms st).
  { destruct Hv as [_ _ _ Hsh _]. eapply Forall_lookup_1 in Hsh; eauto. }
  assert (Hc : closes_at st (Z.of_nat j) = true).
  { apply closes_at_true. left. rewrite HK, Z.mod_1_r. done. }
  pose proof (table_upto_row_closed st (length (frames st)) (Z.of_nat j)
                Hv ltac:(lia) ltac:(lia) Hc) as Hrow.
  rewrite HK, Z.div_1_r, Z.mod_1_r in Hrow. rewrite Hrow. f_equal.
  rewrite (segment_first _ _ _ f)
    by (rewrite ?Nat2Z.id, ?Z.mod_1_r; done || lia).
  unfold reference_of. rewrite HR. cbn [default].
  by apply rmsf_self_zero.
Qed.

Lemma C8_self_comparison_zero_witness :
  let st := __init__ {[1%positive := Coords []]} scenario_frames 1%positive 2 1 0 in
  valid_config st /\ skip st = 1 /\
  frames st !! 2%nat = Some [at_origin; at_origin] /\
  frames st !! Z.to_nat (reference_frame st) = Some [at_origin; at_origin] /\
  exists st', run st = Ok st' /\
    row (Z.of_nat 2) (results_trmsf st') = Some (replicate (n_atoms st) 0%R).
Proof.
  intros st.
  assert (Hv : valid_config st) by valid_by_computation.
  split; [exact Hv|]. split; [reflexivity|].
  split; [reflexivity|]. split; [reflexivity|].
  exact (C8_self_comparison_zero st 2 [at_origin; at_origin]
           Hv eq_refl eq_refl eq_refl).
Defined.

(** C1: in the scenario of the specification (two particles, four
    frames, stride two, reference frame zero) the completed run yields
    the Result Table [[1, 0], [0, 0]]. *)
Theorem C1_scenario_table :
  exists st', run scenario = Ok st' /\
    results_trmsf st' = Some [[1%R; 0%R]; [0%R; 0%R]].
Proof.
  assert (Hv : valid_config scenario) by valid_by_computation.
  destruct (run_spec scenario Hv) as (st' & E & I).
  exists st'. split; [done|].
  rewrite (loop_inv_results _ _ _ I). f_equal.
  change (length (frames scenario)) with 4%nat.
  rewrite !table_upto_S.
  change (closes_at scenario (Z.of_nat 3)) with true.
  change (closes_at scenario (Z.of_nat 2)) with false.
  change (closes_at scenario (Z.of_nat 1)) with true.
  change (closes_at scenario (Z.of_nat 0)) with false.
  cbv iota.
  change (table_upto scenario 0) with [[0%R; 0%R]; [0%R; 0%R]].
  change (Z.to_nat (Z.of_nat 3 `div` skip scenario)) with 1%nat.
  change (Z.to_nat (Z.of_nat 1 `div` skip scenario)) with 0%nat.
  change (segment (frames scenario) (skip scenario) (Z.of_nat 3))
    with [[at_origin; at_origin]; [at_origin; at_origin]].
  change (segment (frames scenario) (skip scenario) (Z.of_nat 1))
    with [[at_origin; at_origin]; [V3 2 0 0; at_origin]].
  change (reference_of scenario) with [at_origin; at_origin].
  change (Z.of_nat 3 `mod` skip scenario + 1) with 2.
  change (Z.of_nat 1 `mod` skip scenario + 1) with 2.
  cbn [list_insert insert].
  unfold rmsf_row, np.sqrt, np.sum_axis1, np.square, np.div.
  cbn [sum_coords n_atoms scenario __init__ np.zeros3 replicate zip_with map].
  unfold np.vsquare, np.vsub, np.vdiv, np.vadd, np.vzero, at_origin.
  cbn [vx vy vz].
  assert (H1 : forall x : R, x = 1%R -> sqrt x = 1%R)
    by (intros x ->; apply sqrt_1).
  assert (H0 : forall x : R, x = 0%R -> sqrt x = 0%R)
    by (intros x ->; apply sqrt_0).
  repeat f_equal; (apply H1 || apply H0); field.
Qed.

(** ** The reference is never aliased *)

Ltac invert_ok H :=
  repeat (fields;
          match type of H with
          | mbind _ ?r = _ =>
              lazymatch r with
              | attr ?x => destruct x eqn:?
              | match ?x with _ => _ end => destruct x eqn:?
              | _ => destruct r eqn:?
              end
          | match ?x with _ => _ end = _ => destruct x eqn:?
          end; try discriminate H);
  fields.

Lemma prepare_ref_inv (st st1 : state) :
  (forall l, avg_coordinates st = Some l -> is_Some (heap st !! l)) ->
  _prepare st = Ok st1 ->
  exists (k : nat) (f : coords) (lr : loc),
    np.index (length (frames st)) (reference_frame st) = Ok k /\
    frames st !! k = Some f /\ ref_inv lr f st1.
Proof.
  intros Hnd H.
  unfold _prepare, trajectory.len_sliced, trajectory.getitem,
    trajectory.positions, load_coords in H.
  destruct st as [h traj buf P K R fi avg sl rp tr]. fields.
  destruct (decide (K = 0)); [done|]. fields.
  destruct (np.index (length traj) R) as [k|] eqn:Ek; [|done]. fields.
  destruct (traj !! k) as [f|] eqn:Ef; [|done]. fields.
  rewrite lookup_insert_eq in H. fields. injection H as <-.
  set (h1 := <[fresh (dom h) := _]> h).
  set (h2 := <[buf := Coords f]> h1).
  exists k, f, (fresh (dom h2)). do 2 (split; [done|]).
  unfold ref_inv. fields. split; [done|].
  split; [by rewrite lookup_insert_eq|].
  split; [symmetry; apply fresh_not_in; subst h2; rewrite lookup_insert_eq; eauto|].
  split.
  - intros E. apply Hnd, elem_of_dom in E.
    pose proof (is_fresh (dom h2)) as Hfr. apply Hfr.
    subst h2 h1. rewrite !dom_insert_L in *. set_solver.
  - intros [= E]. pose proof (is_fresh (dom h2)) as Hfr. apply Hfr.
    rewrite <- E. subst h2 h1. rewrite !dom_insert_L. set_solver.
Qed.

Lemma store_ref_inv (lr l : loc) (c : coords) (a : ndarray) (st : state) :
  l <> lr -> ref_inv lr c st -> ref_inv lr c (store l a st).
Proof.
  intros Hl (Hr & Hh & Hts & Ha & Ht). unfold ref_inv. fields.
  by rewrite lookup_insert_ne.
Qed.

Lemma getitem_ref_inv (lr : loc) (c : coords) (i : Z) (st st' : state) :
  ref_inv lr c st -> trajectory.getitem i st = Ok st' -> ref_inv lr c st'.
Proof.
  intros Hinv H. unfold trajectory.getitem in H.
  destruct (np.index (length (frames st)) i) as [k|]; [|done]. fields.
  destruct (frames st !! k) as [f|]; [|done]. injection H as <-.
  apply store_ref_inv; [|done]. apply Hinv.
Qed.

Lemma accumulate_ref_inv (lr : loc) (c : coords) (st st' : state) :
  ref_inv lr c st -> accumulate st = Ok st' -> ref_inv lr c st'.
Proof.
  intros (Hr & Hh & Hts & Ha & Ht) H.
  unfold accumulate, trajectory.positions, load_coords, np.add in H.
  destruct st as [h traj buf P K R fi avg sl rp tr]. fields.
  destruct (fi `mod` K =? 0); invert_ok H; injection H as <-;
    unfold ref_inv; fields.
  - assert (fresh (dom h) <> lr) by (apply fresh_not_in; eauto).
    rewrite !lookup_insert_ne by done.
    repeat split; try done. congruence.
  - assert (l <> lr) by congruence.
    rewrite !lookup_insert_ne by done. done.
Qed.

Lemma finalise_ref_inv (lr : loc) (c : coords) (st st' : state) :
  ref_inv lr c st -> finalise st = Ok st' -> ref_inv lr c st'.
Proof.
  intros (Hr & Hh & Hts & Ha & Ht) H.
  unfold finalise, load_coords, load_table, np.sub in H.
  destruct st as [h traj buf P K R fi avg sl rp tr]. fields.
  destruct (closes _); [|by injection H as <-].
  invert_ok H. injection H as <-. unfold ref_inv. fields.
  assert (l1 <> lr) by congruence.
  rewrite !lookup_insert_ne by done. done.
Qed.

Lemma perform_ref_inv (lr : loc) (c : coords) (a : action) (st st' : state) :
  ref_inv lr c st -> perform a st = Ok st' -> ref_inv lr c st'.
Proof.
  intros Hinv H. destruct a as [i|b|i|]; cbn [perform] in H.
  - by eapply getitem_ref_inv.
  - injection H as <-. apply store_ref_inv; [|done]. apply Hinv.
  - rewrite single_frame_split in H.
    destruct (decide _); [done|].
    destruct (accumulate _) as [st1|] eqn:E1; [|done].
    eapply finalise_ref_inv; [|exact H].
    eapply accumulate_ref_inv; [|exact E1]. exact Hinv.
  - unfold _conclude in H. invert_ok H. by injection H as <-.
Qed.

Lemma perform_all_ref_inv (lr : loc) (c : coords) (acts : list action)
    (st st' : state) :
  ref_inv lr c st -> perform_all acts st = Ok st' -> ref_inv lr c st'.
Proof.
  revert st. induction acts as [|a acts IH]; intros st Hinv H; cbn in H.
  - by injection H as <-.
  - destruct (perform a st) as [st1|] eqn:E; [|done].
    eapply IH; [|exact H]. by eapply perform_ref_inv.
Qed.

Lemma ref_inv_value (lr : loc) (c : coords) (st : state) :
  ref_inv lr c st ->
  reference_positions st = Some lr /\ reference_value st = Some c.
Proof.
  intros (Hr & Hh & _). unfold reference_value. by rewrite Hr, Hh.
Qed.

(** C9: once the prepare phase has captured the reference as a copy of
    frame R's positions, no later operation changes it: after any
    sequence of frame loads, overwrites of the Frame Source's live
    buffer, per-frame phases and conclude phases, [reference_positions]
    is the same object and still holds frame R's positions. *)
Theorem C9_reference_immutable (st st1 st' : state) (acts : list action) :
  (forall l, avg_coordinates st = Some l -> is_Some (heap st !! l)) ->
  _prepare st = Ok st1 -> perform_all acts st1 = Ok st' ->
  exists (k : nat) (f : coords),
    np.index (length (frames st)) (reference_frame st) = Ok k /\
    frames st !! k = Some f /\
    reference_value st1 = Some f /\
    reference_positions st' = reference_positions st1 /\
    reference_value st' = Some f.
Proof.
  intros Hnd Hp Ha.
  destruct (prepare_ref_inv st st1 Hnd Hp) as (k & f & lr & Hk & Hf & Hinv).
  pose proof (perform_all_ref_inv lr f acts st1 st' Hinv Ha) as Hinv'.
  destruct (ref_inv_value _ _ _ Hinv) as [E1 V1].
  destruct (ref_inv_value _ _ _ Hinv') as [E2 V2].
  exists k, f. rewrite E1, E2. done.
Qed.

Lemma C9_reference_immutable_witness :
  exists st1 st',
    (forall l, avg_coordinates scenario = Some l ->
               is_Some (heap scenario !! l)) /\
    _prepare scenario = Ok st1 /\
    perform_all scenario_actions st1 = Ok st' /\
    exists (k : nat) (f : coords),
      np.index (length (frames scenario)) (reference_frame scenario) = Ok k /\
      frames scenario !! k = Some f /\
      reference_value st1 = Some f /\
      reference_positions st' = reference_positions st1 /\
      reference_value st' = Some f.
Proof.
  assert (Hnd : forall l, avg_coordinates scenario = Some l ->
                          is_Some (heap scenario !! l))
    by (intros l H; discriminate H).
  eexists. eexists.
  split; [exact Hnd|].
  split; [vm_compute; reflexivity|]. split; [vm_compute; reflexivity|].
  eapply C9_reference_immutable with (acts := scenario_actions);
    [exact Hnd | vm_compute; reflexivity | vm_compute; reflexivity].
Defined.

(** ** What the prepare phase rejects *)

(** C2, as stated, fails: an empty particle set is accepted and the run
    completes with a table of one row and no column; a reference frame
    of -1 is accepted and selects the last frame. *)
Lemma C2_rejects_invalid_counterexample :
  n_atoms empty_group = 0%nat /\
  (exists st', run empty_group = Ok st' /\ results_trmsf st' = Some [[]]) /\
  reference_frame from_the_end < 0 /\
  (exists st1, _prepare from_the_end = Ok st1 /\
     reference_value st1 = Some [V3 2 0 0]).
Proof.
  split; [reflexivity|]. split.
  - eexists. split; vm_compute; reflexivity.
  - split; [reflexivity|]. eexists. split; vm_compute; reflexivity.
Qed.

(** C2, amended: the constructor checks nothing; the prepare phase fails,
    before any frame is processed, exactly when K = 0 or R lies outside
    [-F, F).  Otherwise it succeeds, whatever P and the sign of K, and
    the reference is frame R, or frame R + F when R is negative. *)
Theorem C2_prepare_rejects (h : gmap loc ndarray) (traj : list coords)
    (buf : loc) (P : nat) (K R : Z) :
  let st := __init__ h traj buf P K R in
  let F := Z.of_nat (length traj) in
  ((exists e, _prepare st = Raise e) <-> K = 0 \/ ~ (- F <= R < F)) /\
  (forall e, _prepare st = Raise e -> run st = Raise e) /\
  (forall st1, _prepare st = Ok st1 ->
     reference_value st1 =
       traj !! Z.to_nat (if decide (R < 0) then R + F else R)).
Proof.
  intros st F. subst st.
  unfold run, run_upto, _prepare, trajectory.len_sliced, trajectory.getitem,
    trajectory.positions, load_coords, np.index, __init__. fields.
  destruct (decide (K = 0)) as [HK|HK]; fields.
  { split; [split; eauto|]. split; [by intros e [= <-]|done]. }
  fold F.
  assert (Hget : forall k : nat, (k < length traj)%nat ->
    exists f, traj !! k = Some f) by (intros k Hk; by apply lookup_lt_is_Some_2).
  destruct (decide (0 <= R < F)) as [Hr|Hr]; fields.
  - destruct (Hget (Z.to_nat R) ltac:(lia)) as [f Hf]. rewrite Hf. fields.
    rewrite lookup_insert_eq. fields.
    split; [split; [by intros [e [=]]|lia]|]. split; [done|].
    intros st1 [= <-]. unfold reference_value. fields.
    rewrite lookup_insert_eq, decide_False by lia. done.
  - destruct (decide (- F <= R < 0)) as [Hn|Hn]; fields.
    + destruct (Hget (Z.to_nat (R + F)) ltac:(lia)) as [f Hf].
      rewrite Hf. fields. rewrite lookup_insert_eq. fields.
      split; [split; [by intros [e [=]]|lia]|]. split; [done|].
      intros st1 [= <-]. unfold reference_value. fields.
      rewrite lookup_insert_eq, decide_True by lia. done.
    + split; [split; [intros _; right; lia|eauto]|].
      split; [by intros e [= <-]|done].
Qed.

(** ** The driver as a sequence of operations *)

Lemma perform_all_app (a1 a2 : list action) (st : state) :
  perform_all (a1 ++ a2) st = perform_all a1 st ≫= perform_all a2.
Proof.
  revert st. induction a1 as [|a a1 IH]; intros st; cbn; [done|].
  destruct (perform a st); cbn; [apply IH|done].
Qed.

Lemma frames_loop_actions (idx : list nat) (st : state) :
  frames_loop idx st = perform_all (driver_actions idx) st.
Proof.
  revert st. induction idx as [|i idx IH]; intros st; [done|].
  cbn. unfold visit.
  destruct (trajectory.getitem (Z.of_nat i) st) as [st1|]; cbn; [|done].
  destruct (_single_frame _) as [st2|]; cbn; [apply IH|done].
Qed.

Lemma run_actions (st : state) :
  run st =
  _prepare st ≫=
    perform_all (driver_actions (seq 0 (length (frames st)))
                 ++ [Seek 0; Conclude]).
Proof.
  unfold run, run_upto.
  destruct (_prepare st) as [st1|]; cbn [mbind result_bind]; [|done].
  rewrite perform_all_app, frames_loop_actions.
  destruct (perform_all _ st1) as [st2|]; cbn [mbind result_bind]; [|done].
  cbn. unfold trajectory.rewind.
  destruct (trajectory.getitem 0 st2) as [st3|]; cbn; [|done].
  by destruct (_conclude st3).
Qed.

(** ** The table as a whole *)

(** X1: every row of the completed table is the fluctuation of its segment:
    with [i] the frame that closes segment [s], row [s] compares the
    reference with the mean of the frames [K * s .. i]. *)
Theorem run_row_value (st : state) (s : Z) :
  valid_config st -> 0 <= s < ceil_div (trajectory.len st) (skip st) ->
  exists st' i,
    run st = Ok st' /\
    0 <= i < trajectory.len st /\ i `div` skip st = s /\
    closes_at st i = true /\
    row s (results_trmsf st') =
      Some (rmsf_row (reference_of st)
              (sum_coords (n_atoms st) (segment (frames st) (skip st) i))
              (i `mod` skip st + 1)).
Proof.
  intros Hv Hs. pose proof (valid_skip _ Hv) as HK.
  destruct (closes_exists st s HK Hs) as (i & Hi & Hq & Hc).
  destruct (run_spec st Hv) as (st' & E & I).
  exists st', i. do 4 (split; [done|]).
  rewrite (loop_inv_results _ _ _ I). unfold row. cbn. rewrite <- Hq.
  unfold trajectory.len in Hi.
  apply table_upto_row_closed; try done; lia.
Qed.

(** ** Which array objects the per-frame phase writes *)

Lemma accumulate_kept (l : loc) (a : ndarray) (st st' : state) :
  heap st !! l = Some a -> trmsf st <> Some l ->
  (_frame_index st `mod` skip st <> 0 -> avg_coordinates st <> Some l) ->
  accumulate st = Ok st' ->
  heap st' !! l = Some a /\ trmsf st' <> Some l /\
  avg_coordinates st' <> Some l /\
  _frame_index st' = _frame_index st /\ skip st' = skip st /\
  frames st' = frames st /\ ts st' = ts st.
Proof.
  intros Hl Ht Ha H.
  unfold accumulate, trajectory.positions, load_coords, np.add in H.
  destruct st as [h traj buf P K R fi avg sl rp tr]. fields.
  destruct (Z.eqb_spec (fi `mod` K) 0) as [E|E];
    invert_ok H; injection H as <-; fields.
  - assert (fresh (dom h) <> l) by (apply fresh_not_in; eauto).
    rewrite !lookup_insert_ne by done. repeat split; try done. congruence.
  - assert (l0 <> l) by (specialize (Ha E); congruence).
    rewrite !lookup_insert_ne by done. repeat split; try done. by apply Ha.
Qed.

Lemma finalise_kept (l : loc) (a : ndarray) (st st' : state) :
  heap st !! l = Some a -> trmsf st <> Some l ->
  avg_coordinates st <> Some l ->
  finalise st = Ok st' ->
  heap st' !! l = Some a /\ trmsf st' <> Some l /\
  avg_coordinates st' <> Some l /\
  frames st' = frames st /\ ts st' = ts st.
Proof.
  intros Hl Ht Ha H.
  unfold finalise, load_coords, load_table, np.sub in H.
  destruct st as [h traj buf P K R fi avg sl rp tr]. fields.
  destruct (closes _); [|by injection H as <-].
  invert_ok H. injection H as <-. fields.
  assert (l2 <> l) by congruence.
  rewrite !lookup_insert_ne by done. done.
Qed.

Lemma single_frame_kept (l : loc) (a : ndarray) (st st' : state) :
  heap st !! l = Some a -> trmsf st <> Some l ->
  (_frame_index st `mod` skip st <> 0 -> avg_coordinates st <> Some l) ->
  _single_frame st = Ok st' ->
  heap st' !! l = Some a /\ trmsf st' <> Some l /\
  avg_coordinates st' <> Some l /\
  frames st' = frames st /\ ts st' = ts st.
Proof.
  intros Hl Ht Ha H. rewrite single_frame_split in H.
  destruct (decide _); [done|].
  destruct (accumulate st) as [st1|] eqn:E1; [|done].
  destruct (accumulate_kept l a st st1 Hl Ht Ha E1)
    as (Hl1 & Ht1 & Ha1 & _ & _ & Hf1 & Hts1).
  destruct (finalise_kept l a st1 st' Hl1 Ht1 Ha1 H)
    as (Hl2 & Ht2 & Ha2 & Hf2 & Hts2).
  rewrite Hf2, Hts2. done.
Qed.

(** ** Runs of any accepted configuration *)

Lemma index_accepts (n : nat) (i : Z) :
  - Z.of_nat n <= i < Z.of_nat n ->
  exists k, np.index n i = Ok k /\ (k < n)%nat /\
    k = Z.to_nat (if decide (i < 0) then i + Z.of_nat n else i).
Proof.
  intros Hi. unfold np.index.
  destruct (decide (0 <= i < Z.of_nat n)) as [H|H].
  - exists (Z.to_nat i). rewrite decide_False by lia. split; [done|lia].
  - rewrite decide_True by lia. exists (Z.to_nat (i + Z.of_nat n)).
    rewrite decide_True by lia. split; [done|lia].
Qed.

Lemma neg_stride_closes (st : state) (i : Z) :
  skip st < 0 -> closes_at st i = true -> i = trajectory.len st - 1.
Proof.
  intros HK Hc. apply closes_at_true in Hc as [Hc|Hc]; [|done].
  pose proof (Z.mod_neg_bound i (skip st) HK). lia.
Qed.

Lemma closing_index_ok (st : state) (i : Z) :
  skip st <> 0 -> 0 <= i < trajectory.len st -> closes_at st i = true ->
  exists k, np.index (n_rows st) (i `div` skip st) = Ok k /\
    (k < n_rows st)%nat.
Proof.
  intros HK Hi Hc. unfold n_rows.
  destruct (decide (0 < skip st)) as [Hpos|Hneg].
  - rewrite len_sliced_ceil by lia.
    pose proof (seg_num_lt (trajectory.len st) (skip st) i
                  ltac:(lia) Hi) as Hs.
    rewrite index_in_range by lia. eexists. split; [done|lia].
  - apply neg_stride_closes in Hc; [|lia]. subst i.
    set (K := skip st) in *. set (F := trajectory.len st) in *.
    rewrite Z.abs_neq by lia.
    pose proof (Z.div_mod (F - 1) K ltac:(lia)) as D.
    pose proof (Z.mod_neg_bound (F - 1) K ltac:(lia)) as B.
    pose proof (Z.div_mod (F + - K - 1) (- K) ltac:(lia)) as D'.
    pose proof (Z.mod_pos_bound (F + - K - 1) (- K) ltac:(lia)) as B'.
    set (q := (F - 1) `div` K) in *.
    set (rows := (F + - K - 1) `div` (- K)) in *.
    assert (Hq : q <= 0) by nia.
    assert (Hrows : - rows <= q) by nia.
    destruct (index_accepts (Z.to_nat rows) q ltac:(nia)) as (k & Ek & Hk & _).
    eauto.
Qed.

Lemma prepare_weak (st : state) :
  accepted st -> source_ok st ->
  exists st', _prepare st = Ok st' /\ weak_inv st st' 0 0.
Proof.
  intros [HK HR] [Hsh Hbuf].
  destruct (index_accepts (length (frames st)) (reference_frame st) HR)
    as (k & Ek & Hk & _).
  destruct (lookup_lt_is_Some_2 _ _ Hk) as [f Hf].
  assert (Hlen : length f = n_atoms st)
    by (eapply Forall_lookup_1 in Hsh; eauto).
  unfold n_rows.
  destruct st as [h traj buf P K R fi avg sl rp tr].
  unfold trajectory.len in *. fields.
  unfold _prepare, trajectory.len_sliced, trajectory.getitem,
    trajectory.positions, load_coords, trajectory.len. fields.
  rewrite decide_False by done. fields. rewrite Ek. fields. rewrite Hf. fields.
  rewrite lookup_insert_eq. fields.
  eexists. split; [reflexivity|].
  unfold weak_inv, n_rows, trajectory.len. fields. do 5 (split; [done|]).
  set (rows := Z.to_nat _).
  set (h1 := <[fresh (dom h) := _]> h).
  set (h2 := <[buf := _]> h1).
  assert (Ht2 : h2 !! fresh (dom h) = Some (Table (np.zeros rows P))).
  { subst h2 h1. rewrite lookup_insert_ne by (symmetry; by apply fresh_not_in).
    by rewrite lookup_insert_eq. }
  exists (fresh (dom h)), (fresh (dom h2)), (np.zeros rows P), f.
  split; [done|]. split; [done|].
  split; [by apply fresh_not_in|].
  split; [apply fresh_not_in; subst h2; rewrite lookup_insert_eq; eauto|].
  split; [symmetry; apply fresh_not_in; rewrite Ht2; eauto|].
  split.
  { rewrite lookup_insert_ne
      by (apply fresh_not_in; subst h2; rewrite lookup_insert_eq; eauto).
    subst h2. rewrite lookup_insert_eq. eauto. }
  split.
  { rewrite lookup_insert_ne; [done|]. apply fresh_not_in. rewrite Ht2. eauto. }
  split; [apply zeros_shape|].
  split.
  { unfold np.zeros. apply Forall_forall. intros r Hr.
    apply elem_of_replicate in Hr as [-> _].
    apply Forall_forall. intros x Hx.
    apply elem_of_replicate in Hx as [-> _]. lra. }
  split; [done|].
  split; [intros _; exists rows, []; by rewrite list_insert_ge
            by (unfold np.zeros; rewrite length_replicate; lia)|].
  split; [by rewrite lookup_insert_eq|]. split; [done|]. done.
Qed.

Lemma getitem_weak (st0 st : state) (m n i : nat) (f : coords) :
  weak_inv st0 st m n -> frames st0 !! i = Some f ->
  exists st', trajectory.getitem (Z.of_nat i) st = Ok st' /\
    weak_inv st0 st' m n /\ heap st' !! ts st' = Some (Coords f) /\
    _frame_index st' = _frame_index st.
Proof.
  intros (Hfr & Hts & HP & HK & HR & lt & lr & t & ref & Ht & Hr & Hlt & Hlr &
          Hne & Hbuf & Htab & Hsh & Hpos & Hz & Ho & Href & Hrl & Hacc) Hf.
  destruct st as [h traj buf P K R fi avg sl rp tr]. fields. subst.
  unfold trajectory.getitem. fields.
  rewrite index_in_range by (apply lookup_lt_Some in Hf; lia). fields.
  rewrite Nat2Z.id, Hf. eexists. split; [reflexivity|]. fields.
  split; [|by rewrite lookup_insert_eq].
  unfold weak_inv. fields. do 5 (split; [done|]).
  exists lt, lr, t, ref. do 5 (split; [done|]).
  split; [rewrite lookup_insert_eq; eauto|].
  split; [by rewrite lookup_insert_ne|].
  do 4 (split; [done|]).
  split; [by rewrite lookup_insert_ne|]. split; [done|].
  intros Hn. destruct (Hacc Hn) as (la & acc & z & ? & ? & ? & ? & ? & ? & ?).
  exists la, acc, z. rewrite lookup_insert_ne by done. done.
Qed.

Lemma accumulate_weak (st0 st : state) (n : nat) (f : coords) :
  source_ok st0 -> skip st0 <> 0 -> weak_inv st0 st n n ->
  frames st0 !! n = Some f -> heap st !! ts st = Some (Coords f) ->
  _frame_index st = Z.of_nat n ->
  exists st', accumulate st = Ok st' /\ weak_inv st0 st' n (S n) /\
    _frame_index st' = Z.of_nat n.
Proof.
  intros [Hsrc _] HK0
    (Hfr & Hts & HP & HK & HR & lt & lr & t & ref & Ht & Hr & Hlt & Hlr &
     Hne & Hbuf & Htab & Hsh & Hpos & Hz & Ho & Href & Hrl & Hacc) Hf Hb Hi.
  assert (Hlen : length f = n_atoms st0)
    by (eapply Forall_lookup_1 in Hsrc; eauto).
  destruct st as [h traj buf P K R fi avg sl rp tr]. fields. subst.
  unfold accumulate, trajectory.positions, load_coords. fields.
  destruct (Z.eqb_spec (Z.of_nat n `mod` skip st0) 0) as [E|E]; fields.
  - set (la := fresh (dom h)).
    assert (la <> ts st0) by (apply fresh_not_in; eauto).
    assert (la <> lt) by (apply fresh_not_in; eauto).
    assert (la <> lr) by (apply fresh_not_in; eauto).
    rewrite lookup_insert_eq. fields.
    rewrite lookup_insert_ne, Hb by done. fields.
    rewrite add_same_length by (by rewrite length_zeros3). fields.
    eexists. split; [reflexivity|]. split; [|done].
    unfold weak_inv. fields. do 5 (split; [done|]).
    exists lt, lr, t, ref. do 5 (split; [done|]).
    rewrite !(lookup_insert_ne _ la) by done.
    do 8 (split; [done|]). intros _.
    exists la, (zip_with np.vadd (np.zeros3 (n_atoms st0)) f), (0 + 1).
    rewrite lookup_insert_eq. do 5 (split; [done|]). split; [|done].
    rewrite length_zip_with, length_zeros3. lia.
  - assert (Hn : n <> 0%nat) by (intros ->; by apply E).
    destruct (Hacc Hn) as (la & acc & z & Ha & ? & ? & ? & Hla & Hal & Hsl).
    subst avg sl. fields. rewrite Hla, Hb. fields.
    rewrite add_same_length by congruence.
    fields. eexists. split; [reflexivity|]. split; [|done].
    unfold weak_inv. fields. do 5 (split; [done|]).
    exists lt, lr, t, ref. do 5 (split; [done|]).
    rewrite !(lookup_insert_ne _ la) by done.
    do 8 (split; [done|]). intros _.
    exists la, (zip_with np.vadd acc f), (z + 1).
    rewrite lookup_insert_eq. do 5 (split; [done|]). split; [|done].
    rewrite length_zip_with. lia.
Qed.

Lemma finalise_weak (st0 st : state) (n : nat) :
  skip st0 <> 0 -> weak_inv st0 st n (S n) ->
  _frame_index st = Z.of_nat n -> (n < length (frames st0))%nat ->
  exists st', finalise st = Ok st' /\ weak_inv st0 st' (S n) (S n) /\
    _frame_index st' = Z.of_nat n.
Proof.
  intros HK0
    (Hfr & Hts & HP & HK & HR & lt & lr & t & ref & Ht & Hr & Hlt & Hlr &
     Hne & Hbuf & Htab & [Hrows Hcols] & Hpos & Hz & Ho & Href & Hrl & Hacc)
    Hi Hn.
  destruct (Hacc ltac:(lia))
    as (la & acc & z & Ha & Hla1 & Hla2 & Hla3 & Hla & Hal & Hsl).
  unfold finalise. rewrite (closes_config st0 st n) by done.
  destruct st as [h traj buf P K R fi avg sl rp tr]. fields. subst.
  destruct (closes_at st0 (Z.of_nat n)) eqn:Hc.
  - unfold load_coords, load_table. fields. rewrite Hla, Href. fields.
    rewrite sub_same_length
      by (unfold np.div; rewrite length_map; congruence).
    fields. rewrite Htab. fields. unfold np.setitem.
    destruct (closing_index_ok st0 (Z.of_nat n) HK0
                ltac:(unfold trajectory.len; lia) Hc) as (k & Ek & Hk).
    rewrite Hrows, Ek. fields.
    destruct (lookup_lt_is_Some_2 t k ltac:(lia)) as [old Hold].
    rewrite Hold.
    change (np.sqrt _) with (rmsf_row ref acc z).
    rewrite decide_True.
    2:{ rewrite length_rmsf_row by congruence.
        rewrite Hrl. eapply Forall_lookup_1 in Hcols; eauto. }
    fields. eexists. split; [reflexivity|]. split; [|done].
    unfold weak_inv. fields. do 5 (split; [done|]).
    exists lt, lr, (<[k := rmsf_row ref acc z]> t), ref.
    do 5 (split; [done|]).
    rewrite lookup_insert_eq, !(lookup_insert_ne _ lt) by done.
    do 2 (split; [done|]).
    split.
    { split; [by rewrite length_insert|].
      apply Forall_insert; [done|].
      rewrite length_rmsf_row by congruence. done. }
    split; [apply Forall_insert; [done|apply rmsf_row_nonneg]|].
    split; [intros H; specialize (H n ltac:(lia)); congruence|].
    split.
    { intros H. rewrite Hz by (intros j Hj; apply H; lia). eauto. }
    do 2 (split; [done|]). intros _. exists la, acc, z.
    rewrite !(lookup_insert_ne _ lt) by done. done.
  - eexists. split; [reflexivity|]. split; [|done].
    unfold weak_inv. fields. do 5 (split; [done|]).
    exists lt, lr, t, ref. do 9 (split; [done|]).
    split; [intros H; apply Hz; intros j Hj; apply H; lia|].
    split.
    { intros H. rewrite Hz by (intros j Hj; apply H; lia).
      exists (n_rows st0), [].
      by rewrite list_insert_ge
        by (unfold np.zeros; rewrite length_replicate; lia). }
    do 2 (split; [done|]). intros _. exists la, acc, z. done.
Qed.

Lemma visit_weak (st0 st : state) (n : nat) :
  source_ok st0 -> skip st0 <> 0 -> weak_inv st0 st n n ->
  (n < length (frames st0))%nat ->
  exists st', visit st n = Ok st' /\ weak_inv st0 st' (S n) (S n).
Proof.
  intros Hsrc HK Hinv Hn.
  destruct (lookup_lt_is_Some_2 _ _ Hn) as [f Hf].
  destruct (getitem_weak st0 st n n n f Hinv Hf) as (st1 & E1 & I1 & B1 & _).
  unfold visit. rewrite E1. cbn [mbind result_bind].
  rewrite single_frame_split.
  assert (Hcfg : skip (set_frame_index (Z.of_nat n) st1) = skip st0)
    by (destruct I1 as (_ & _ & _ & HK' & _); done).
  rewrite decide_False by (by rewrite Hcfg).
  destruct (accumulate_weak st0 (set_frame_index (Z.of_nat n) st1) n f)
    as (st2 & E2 & I2 & F2); try done.
  rewrite E2. cbn [mbind result_bind].
  destruct (finalise_weak st0 st2 n HK I2 F2 Hn) as (st3 & E3 & I3 & _).
  eauto.
Qed.

Lemma run_upto_weak (st : state) (n : nat) :
  accepted st -> source_ok st -> (n <= length (frames st))%nat ->
  exists st', run_upto n st = Ok st' /\ weak_inv st st' n n.
Proof.
  intros Hacc Hsrc. induction n as [|n IH]; intros Hn.
  - destruct (prepare_weak st Hacc Hsrc) as (st1 & E & I).
    exists st1. unfold run_upto. rewrite E. done.
  - destruct IH as (st1 & E & I); [lia|].
    destruct (visit_weak st st1 n Hsrc (proj1 Hacc) I ltac:(lia))
      as (st2 & E2 & I2).
    exists st2. rewrite run_upto_S, E. done.
Qed.

Lemma conclude_weak (st0 st : state) (m n : nat) :
  weak_inv st0 st m n -> _conclude st = Ok st.
Proof.
  intros (_ & _ & _ & _ & _ & lt & lr & t & ref & Ht & _ & _ & _ & _ & _ &
          Htab & _ & Hpos & _).
  unfold _conclude, load_table. rewrite Ht. cbn. rewrite Htab. cbn.
  by rewrite (proj2 (all_ge0_Forall t) Hpos).
Qed.

Lemma weak_inv_results (st0 st : state) (m n : nat) :
  weak_inv st0 st m n ->
  exists t, results_trmsf st = Some t /\
    shape (n_rows st0) (n_atoms st0) t /\
    Forall (Forall (fun x => (0 <= x)%R)) t /\
    ((forall j : nat, (j < m)%nat -> closes_at st0 (Z.of_nat j) = false) ->
       t = np.zeros (n_rows st0) (n_atoms st0)) /\
    ((forall j : nat, (S j < m)%nat -> closes_at st0 (Z.of_nat j) = false) ->
       exists (k : nat) (r : list R),
         t = <[k := r]> (np.zeros (n_rows st0) (n_atoms st0))).
Proof.
  intros (_ & _ & _ & _ & _ & lt & lr & t & ref & Ht & _ & _ & _ & _ & _ &
          Htab & Hsh & Hpos & Hz & Ho & _).
  exists t. unfold results_trmsf. rewrite Ht, Htab. done.
Qed.

Lemma run_weak (st : state) :
  accepted st -> source_ok st ->
  exists st', run st = Ok st' /\
    weak_inv st st' (length (frames st)) (length (frames st)).
Proof.
  intros Hacc Hsrc.
  destruct (run_upto_weak st (length (frames st)) Hacc Hsrc ltac:(lia))
    as (st1 & E & I).
  assert (HF : (0 < length (frames st))%nat)
    by (destruct Hacc as [_ HR]; unfold trajectory.len in HR; lia).
  destruct (lookup_lt_is_Some_2 _ _ HF) as [f Hf].
  destruct (getitem_weak st st1 _ _ 0 f I Hf) as (st2 & E2 & I2 & _).
  exists st2. unfold run, trajectory.rewind. rewrite E.
  cbn [mbind result_bind]. change 0 with (Z.of_nat 0). rewrite E2.
  cbn [mbind result_bind]. by rewrite (conclude_weak _ _ _ _ I2).
Qed.

Lemma prepare_raises (st : state) :
  (skip st = 0 -> _prepare st = Raise ValueError) /\
  (skip st <> 0 ->
   ~ (- trajectory.len st <= reference_frame st < trajectory.len st) ->
   _prepare st = Raise IndexError).
Proof.
  unfold _prepare, trajectory.len_sliced, trajectory.getitem, np.index,
    trajectory.len.
  destruct st as [h traj buf P K R fi avg sl rp tr]. fields. split.
  - intros ->. done.
  - intros HK HR. fields.
    destruct (decide (K = 0)); [done|]. fields.
    rewrite !decide_False by lia. fields. done.
Qed.

(** X2: for every non-zero stride, positive or negative, every reference
    index in [[-F, F)] and every particle count, zero included, the run
    completes; the table has [ceil(F / |K|)] rows of P non-negative
    entries. *)
Theorem X_accepted_run_completes (st : state) :
  accepted st -> source_ok st ->
  exists st' t, run st = Ok st' /\ results_trmsf st' = Some t /\
    Z.of_nat (length t) =
      (trajectory.len st + Z.abs (skip st) - 1) `div` Z.abs (skip st) /\
    Forall (fun r => length r = n_atoms st) t /\
    Forall (Forall (fun x => (0 <= x)%R)) t.
Proof.
  intros Hacc Hsrc.
  destruct (run_weak st Hacc Hsrc) as (st1 & E & I).
  destruct (weak_inv_results _ _ _ _ I) as (t & Hres & [Hrows Hcols] & Hpos & _).
  exists st1, t. do 2 (split; [done|]).
  split; [|done]. rewrite Hrows. unfold n_rows. apply Z2Nat.id.
  apply Z.div_pos; unfold trajectory.len; destruct Hacc; lia.
Qed.

Lemma X_accepted_run_completes_witness :
  accepted from_the_end /\ source_ok from_the_end /\
  exists st' t, run from_the_end = Ok st' /\ results_trmsf st' = Some t /\
    Z.of_nat (length t) =
      (trajectory.len from_the_end + Z.abs (skip from_the_end) - 1)
        `div` Z.abs (skip from_the_end) /\
    Forall (fun r => length r = n_atoms from_the_end) t /\
    Forall (Forall (fun x => (0 <= x)%R)) t.
Proof.
  assert (Ha : accepted from_the_end)
    by (unfold accepted, trajectory.len; cbn; lia).
  assert (Hs : source_ok from_the_end)
    by (split; cbn; [repeat constructor|rewrite lookup_singleton_eq; eauto]).
  split; [exact Ha|]. split; [exact Hs|].
  exact (X_accepted_run_completes from_the_end Ha Hs).
Defined.

(** X3: with a well-formed Frame Source the run raises in exactly two cases:
    a zero stride, as the [ValueError] of the strided slice, and otherwise
    a reference index outside [[-F, F)], as the [IndexError] of the
    trajectory.  In particular the division by the stride in the per-frame
    phase never raises during a run. *)
Theorem X_run_raises_iff (st : state) (e : exn) :
  source_ok st ->
  (run st = Raise e <->
   (skip st = 0 /\ e = ValueError) \/
   (skip st <> 0 /\
    ~ (- trajectory.len st <= reference_frame st < trajectory.len st) /\
    e = IndexError)).
Proof.
  intros Hsrc. destruct (prepare_raises st) as [Hzero Hout].
  destruct (decide (skip st = 0)) as [HK|HK].
  { unfold run, run_upto. rewrite (Hzero HK). cbn. split.
    - intros [= <-]. by left.
    - intros [[_ ->]|[? _]]; done. }
  destruct (decide (- trajectory.len st <= reference_frame st
                    < trajectory.len st)) as [HR|HR].
  - destruct (run_weak st (conj HK HR) Hsrc) as (st1 & E & I).
    rewrite E. split; [done|].
    intros [[? _]|(_ & ? & _)]; done.
  - unfold run, run_upto. rewrite (Hout HK HR). cbn. split.
    + intros [= <-]. by right.
    + intros [[? _]|(_ & _ & ->)]; done.
Qed.

Lemma X_run_raises_iff_witness :
  source_ok empty_group /\
  (run empty_group = Raise ValueError <->
   (skip empty_group = 0 /\ ValueError = ValueError) \/
   (skip empty_group <> 0 /\
    ~ (- trajectory.len empty_group <= reference_frame empty_group
       < trajectory.len empty_group) /\
    ValueError = IndexError)).
Proof.
  assert (Hs : source_ok empty_group)
    by (split; cbn; [repeat constructor|rewrite lookup_singleton_eq; eauto]).
  split; [exact Hs|].
  exact (X_run_raises_iff empty_group ValueError Hs).
Defined.

(** X4: with a negative stride no segment closes before the last frame, so
    the completed table is all zeros except for at most one row. *)
Theorem X_negative_stride_one_row (st : state) :
  skip st < 0 -> accepted st -> source_ok st ->
  exists st' (k : nat) (r : list R),
    run st = Ok st' /\
    results_trmsf st' =
      Some (<[k := r]> (np.zeros (n_rows st) (n_atoms st))).
Proof.
  intros HK Hacc Hsrc.
  destruct (run_weak st Hacc Hsrc) as (st1 & E & I).
  destruct (weak_inv_results _ _ _ _ I) as (t & Hres & _ & _ & _ & Ho).
  destruct Ho as (k & r & ->).
  { intros j Hj. destruct (closes_at st (Z.of_nat j)) eqn:Hc; [|done].
    apply neg_stride_closes in Hc; [|done]. unfold trajectory.len in Hc. lia. }
  by exists st1, k, r.
Qed.

Lemma X_negative_stride_one_row_witness :
  skip backwards < 0 /\ accepted backwards /\ source_ok backwards /\
  exists st' (k : nat) (r : list R),
    run backwards = Ok st' /\
    results_trmsf st' =
      Some (<[k := r]> (np.zeros (n_rows backwards) (n_atoms backwards))).
Proof.
  assert (Hk : skip backwards < 0) by (cbn; lia).
  assert (Ha : accepted backwards)
    by (unfold accepted, trajectory.len; cbn; lia).
  assert (Hs : source_ok backwards)
    by (split; cbn; [repeat constructor|rewrite lookup_singleton_eq; eauto]).
  split; [exact Hk|]. split; [exact Ha|]. split; [exact Hs|].
  exact (X_negative_stride_one_row backwards Hk Ha Hs).
Defined.

(** ** Objects a run leaves alone *)

Lemma getitem_fields (i : Z) (st st' : state) (l : loc) (a : ndarray) :
  trajectory.getitem i st = Ok st' ->
  ts st' = ts st /\ skip st' = skip st /\ trmsf st' = trmsf st /\
  avg_coordinates st' = avg_coordinates st /\
  _frame_index st' = _frame_index st /\
  (exists f, heap st' !! ts st = Some (Coords f)) /\
  (heap st !! l = Some a -> ts st <> l -> heap st' !! l = Some a).
Proof.
  intros H. unfold trajectory.getitem in H.
  destruct (np.index (length (frames st)) i) as [k|]; [|done]. fields.
  destruct (frames st !! k) as [f|]; [|done]. injection H as <-. fields.
  do 5 (split; [done|]). split; [rewrite lookup_insert_eq; eauto|].
  intros Hl Hne. by rewrite lookup_insert_ne.
Qed.

Lemma visit_kept (l : loc) (a : ndarray) (st st' : state) (i : nat) :
  heap st !! l = Some a -> ts st <> l -> trmsf st <> Some l ->
  (i <> 0%nat -> avg_coordinates st <> Some l) ->
  visit st i = Ok st' ->
  heap st' !! l = Some a /\ ts st' = ts st /\ ts st' <> l /\
  trmsf st' <> Some l /\ avg_coordinates st' <> Some l.
Proof.
  intros Hl Hts Ht Ha H. unfold visit in H.
  destruct (trajectory.getitem (Z.of_nat i) st) as [st1|] eqn:E1; [|done].
  cbn [mbind result_bind] in H.
  destruct (getitem_fields _ _ _ l a E1) as (Ets & Ek & Et & Eavg & _ & _ & Hk).
  assert (Hpre : _frame_index (set_frame_index (Z.of_nat i) st1)
                   `mod` skip (set_frame_index (Z.of_nat i) st1) <> 0 ->
                 avg_coordinates (set_frame_index (Z.of_nat i) st1) <> Some l).
  { fields. rewrite Eavg. intros Hm. apply Ha. intros ->. by apply Hm. }
  destruct (single_frame_kept l a (set_frame_index (Z.of_nat i) st1) st'
              (Hk Hl Hts) ltac:(fields; by rewrite Et) Hpre H)
    as (Hl' & Ht' & Ha' & _ & Ets').
  fields. rewrite Ets', Ets. done.
Qed.

Lemma prepare_kept (l : loc) (a : ndarray) (st st1 : state) :
  heap st !! l = Some a -> ts st <> l -> _prepare st = Ok st1 ->
  heap st1 !! l = Some a /\ ts st1 = ts st /\ trmsf st1 <> Some l /\
  reference_positions st1 <> Some l.
Proof.
  intros Hl Hts H.
  unfold _prepare, trajectory.len_sliced, trajectory.getitem,
    trajectory.positions, load_coords in H.
  destruct st as [h traj buf P K R fi avg sl rp tr]. fields.
  destruct (decide (K = 0)); [done|]. fields.
  destruct (np.index (length traj) R) as [k|]; [|done]. fields.
  destruct (traj !! k) as [f|]; [|done]. fields.
  rewrite lookup_insert_eq in H. fields. injection H as <-. fields.
  set (h1 := <[fresh (dom h) := _]> h).
  set (h2 := <[buf := Coords f]> h1).
  assert (H1 : fresh (dom h) <> l) by (apply fresh_not_in; eauto).
  assert (Hl2 : h2 !! l = Some a).
  { subst h2 h1. by rewrite !lookup_insert_ne by done. }
  assert (H2 : fresh (dom h2) <> l) by (apply fresh_not_in; eauto).
  rewrite lookup_insert_ne by done. do 2 (split; [done|]).
  split; congruence.
Qed.

Lemma run_upto_kept (l : loc) (a : ndarray) (st st' : state) (n : nat) :
  heap st !! l = Some a -> ts st <> l -> run_upto n st = Ok st' ->
  heap st' !! l = Some a /\ ts st' = ts st /\ trmsf st' <> Some l /\
  (n <> 0%nat -> avg_coordinates st' <> Some l).
Proof.
  intros Hl Hts. revert st'. induction n as [|n IH]; intros st' H.
  - unfold run_upto in H.
    destruct (_prepare st) as [st1|] eqn:E; [|done]. cbn in H.
    injection H as <-.
    destruct (prepare_kept l a st st1 Hl Hts E) as (? & ? & ? & _). done.
  - rewrite run_upto_S in H.
    destruct (run_upto n st) as [st1|]; [|done]. cbn [mbind result_bind] in H.
    destruct (IH st1 eq_refl) as (Hl1 & Hts1 & Ht1 & Ha1).
    destruct (visit_kept l a st1 st' n Hl1 ltac:(congruence) Ht1 Ha1 H)
      as (? & ? & ? & ? & ?).
    repeat split; try done. congruence.
Qed.

Lemma conclude_same (st st' : state) : _conclude st = Ok st' -> st' = st.
Proof.
  intros H. unfold _conclude in H. invert_ok H. by injection H as <-.
Qed.

Lemma run_kept (l : loc) (a : ndarray) (st st' : state) :
  heap st !! l = Some a -> ts st <> l -> run st = Ok st' ->
  heap st' !! l = Some a /\ trmsf st' <> Some l.
Proof.
  intros Hl Hts H. unfold run, trajectory.rewind in H.
  destruct (run_upto (length (frames st)) st) as [st1|] eqn:E; [|done].
  cbn [mbind result_bind] in H.
  destruct (trajectory.getitem 0 st1) as [st2|] eqn:E2; [|done].
  cbn [mbind result_bind] in H. apply conclude_same in H. subst st'.
  destruct (run_upto_kept l a st st1 _ Hl Hts E) as (Hl1 & Hts1 & Ht1 & _).
  destruct (getitem_fields _ _ _ l a E2) as (_ & _ & Et & _ & _ & _ & Hk).
  split; [apply Hk; congruence|by rewrite Et].
Qed.

(** X6: a run writes to no array object that existed before it started,
    other than the Frame Source's live buffer: such an object holds the
    same value afterwards, and the table of the run is not that object. *)
Theorem X_run_leaves_objects_alone (st st' : state) (l : loc) (a : ndarray) :
  heap st !! l = Some a -> ts st <> l -> run st = Ok st' ->
  heap st' !! l = Some a /\ trmsf st' <> Some l.
Proof.
  intros Hl Hts H. by apply (run_kept l a st st').
Qed.

Lemma X_run_leaves_objects_alone_witness :
  exists st',
    heap scenario_with_guest !! 5%positive = Some (Table [[7%R]]) /\
    ts scenario_with_guest <> 5%positive /\
    run scenario_with_guest = Ok st' /\
    heap st' !! 5%positive = Some (Table [[7%R]]) /\
    trmsf st' <> Some 5%positive.
Proof.
  assert (Hv : valid_config scenario_with_guest).
  { split; unfold trajectory.len; cbn;
      [lia|lia|lia|repeat constructor|]. vm_compute. eauto. }
  assert (Hl : heap scenario_with_guest !! 5%positive = Some (Table [[7%R]]))
    by (vm_compute; reflexivity).
  assert (Hts : ts scenario_with_guest <> 5%positive) by discriminate.
  destruct (run_spec scenario_with_guest Hv) as (st' & E & _).
  exists st'. split; [exact Hl|]. split; [exact Hts|]. split; [exact E|].
  exact (X_run_leaves_objects_alone scenario_with_guest st' 5%positive
           (Table [[7%R]]) Hl Hts E).
Defined.

(** X5: the per-frame phase writes to two array objects only, the running
    sum and the table: any other object of the store, the live buffer
    included, holds the same value afterwards. *)
Theorem X_single_frame_writes_sum_and_table (st st' : state) (l : loc)
    (a : ndarray) :
  heap st !! l = Some a -> trmsf st <> Some l ->
  (_frame_index st `mod` skip st <> 0 -> avg_coordinates st <> Some l) ->
  _single_frame st = Ok st' ->
  heap st' !! l = Some a.
Proof.
  intros Hl Ht Ha H.
  by destruct (single_frame_kept l a st st' Hl Ht Ha H) as (? & _).
Qed.

Lemma X_single_frame_writes_sum_and_table_witness :
  exists st',
    heap guest_frame0 !! ts guest_frame0
      = Some (Coords [at_origin; at_origin]) /\
    trmsf guest_frame0 <> Some (ts guest_frame0) /\
    (_frame_index guest_frame0 `mod` skip guest_frame0 <> 0 ->
     avg_coordinates guest_frame0 <> Some (ts guest_frame0)) /\
    _single_frame guest_frame0 = Ok st' /\
    heap st' !! ts guest_frame0 = Some (Coords [at_origin; at_origin]).
Proof.
  eexists.
  split; [vm_compute; reflexivity|]. split; [discriminate|].
  split; [intros _; discriminate|].
  split; [vm_compute; reflexivity|].
  apply (X_single_frame_writes_sum_and_table guest_frame0);
    [ vm_compute; reflexivity | discriminate | intros _; discriminate
    | vm_compute; reflexivity ].
Defined.

(** ** Running twice *)

Lemma table_upto_ext (st1 st2 : state) (n : nat) :
  frames st1 = frames st2 -> skip st1 = skip st2 ->
  n_atoms st1 = n_atoms st2 -> reference_frame st1 = reference_frame st2 ->
  table_upto st1 n = table_upto st2 n.
Proof.
  intros Hf Hk Hp Hr.
  assert (Hc : forall i, closes_at st1 i = closes_at st2 i).
  { intros i. rewrite !closes_at_unfold. unfold trajectory.len.
    by rewrite Hf, Hk. }
  assert (Href : reference_of st1 = reference_of st2)
    by (unfold reference_of; by rewrite Hf, Hr).
  induction n as [|n IH].
  - cbn [table_upto]. unfold trajectory.len. by rewrite Hf, Hk, Hp.
  - rewrite !table_upto_S, IH, Hc, Href, Hf, Hk, Hp. done.
Qed.

Lemma loop_inv_valid (st0 st : state) (n : nat) :
  valid_config st0 -> loop_inv st0 st n -> valid_config st.
Proof.
  intros [HP HK HR Hsh Hbuf]
    (Hfr & Hts & Hn & Hk & Hr & lt & lr & _ & _ & _ & _ & _ & Hb & _).
  split; unfold trajectory.len in *; rewrite ?Hfr, ?Hn, ?Hk, ?Hr; done.
Qed.

(** X7: a second run on the same object yields an equal table in a new
    array object; the table of the first run keeps its value. *)
Theorem X_second_run_same_table (st : state) :
  valid_config st ->
  exists (st1 st2 : state) (t : table) (lt1 : loc),
    run st = Ok st1 /\ results_trmsf st1 = Some t /\ trmsf st1 = Some lt1 /\
    run st1 = Ok st2 /\ results_trmsf st2 = Some t /\
    trmsf st2 <> Some lt1 /\ heap st2 !! lt1 = Some (Table t).
Proof.
  intros Hv. destruct (run_spec st Hv) as (st1 & E1 & I1).
  pose proof (loop_inv_valid _ _ _ Hv I1) as Hv1.
  destruct (run_spec st1 Hv1) as (st2 & E2 & I2).
  pose proof (loop_inv_results _ _ _ I1) as R1.
  pose proof (loop_inv_results _ _ _ I2) as R2.
  destruct I1 as (Hfr & Hts & Hn & Hk & Hr & lt & lr & Ht & _ & Hlt & _ & _ &
                  _ & Htab & _).
  rewrite (table_upto_ext st1 st) in R2 by done. rewrite Hfr in R2.
  exists st1, st2, (table_upto st (length (frames st))), lt.
  do 5 (split; [done|]).
  destruct (run_kept lt (Table (table_upto st (length (frames st))))
              st1 st2 Htab ltac:(congruence) E2) as [? ?].
  done.
Qed.

Lemma X_second_run_same_table_witness :
  valid_config scenario /\
  exists (st1 st2 : state) (t : table) (lt1 : loc),
    run scenario = Ok st1 /\ results_trmsf st1 = Some t /\
    trmsf st1 = Some lt1 /\
    run st1 = Ok st2 /\ results_trmsf st2 = Some t /\
    trmsf st2 <> Some lt1 /\ heap st2 !! lt1 = Some (Table t).
Proof.
  assert (Hv : valid_config scenario) by valid_by_computation.
  split; [exact Hv | exact (X_second_run_same_table scenario Hv)].
Defined.

(** ** Where the Frame Source is left *)

(** X9: the prepare phase moves the Frame Source: whenever it succeeds, the
    live buffer holds the reference frame afterwards, and the reference is
    a different array object with the same contents. *)
Theorem X_prepare_moves_source (st st1 : state) :
  _prepare st = Ok st1 ->
  exists (k : nat) (f : coords) (lr : loc),
    np.index (length (frames st)) (reference_frame st) = Ok k /\
    frames st !! k = Some f /\
    trajectory.positions st1 = Ok f /\
    reference_positions st1 = Some lr /\ lr <> ts st1 /\
    heap st1 !! lr = Some (Coords f).
Proof.
  intros H.
  unfold _prepare, trajectory.len_sliced, trajectory.getitem,
    trajectory.positions, load_coords in *.
  destruct st as [h traj buf P K R fi avg sl rp tr]. fields.
  destruct (decide (K = 0)); [done|]. fields.
  destruct (np.index (length traj) R) as [k|] eqn:Ek; [|done]. fields.
  destruct (traj !! k) as [f|] eqn:Ef; [|done]. fields.
  rewrite lookup_insert_eq in H. fields. injection H as <-. fields.
  set (h1 := <[fresh (dom h) := _]> h).
  set (h2 := <[buf := Coords f]> h1).
  assert (Hne : fresh (dom h2) <> buf)
    by (apply fresh_not_in; subst h2; rewrite lookup_insert_eq; eauto).
  exists k, f, (fresh (dom h2)). do 2 (split; [done|]).
  rewrite lookup_insert_ne by done. subst h2. rewrite !lookup_insert_eq.
  done.
Qed.

Lemma X_prepare_moves_source_witness :
  exists st1,
    _prepare from_the_end = Ok st1 /\
    exists (k : nat) (f : coords) (lr : loc),
      np.index (length (frames from_the_end)) (reference_frame from_the_end)
        = Ok k /\
      frames from_the_end !! k = Some f /\
      trajectory.positions st1 = Ok f /\
      reference_positions st1 = Some lr /\ lr <> ts st1 /\
      heap st1 !! lr = Some (Coords f).
Proof.
  eexists. split; [vm_compute; reflexivity|].
  apply (X_prepare_moves_source from_the_end). vm_compute. reflexivity.
Defined.

Lemma run_row_value_witness :
  valid_config scenario /\
  0 <= 1 < ceil_div (trajectory.len scenario) (skip scenario) /\
  exists st' i,
    run scenario = Ok st' /\
    0 <= i < trajectory.len scenario /\ i `div` skip scenario = 1 /\
    closes_at scenario i = true /\
    row 1 (results_trmsf st') =
      Some (rmsf_row (reference_of scenario)
              (sum_coords (n_atoms scenario)
                 (segment (frames scenario) (skip scenario) i))
              (i `mod` skip scenario + 1)).
Proof.
  assert (Hv : valid_config scenario) by valid_by_computation.
  assert (Hs : 0 <= 1 < ceil_div (trajectory.len scenario) (skip scenario))
    by (vm_compute; split; [discriminate|reflexivity]).
  split; [exact Hv|]. split; [exact Hs|].
  exact (run_row_value scenario 1 Hv Hs).
Defined.

(** ** A run stopped early *)

Lemma final_row (st st' : state) (i : Z) :
  valid_config st -> run st = Ok st' ->
  0 <= i < trajectory.len st -> closes_at st i = true ->
  row (i `div` skip st) (results_trmsf st') =
    Some (rmsf_row (reference_of st)
            (sum_coords (n_atoms st) (segment (frames st) (skip st) i))
            (i `mod` skip st + 1)).
Proof.
  intros Hv E Hi Hc. destruct (run_spec st Hv) as (st1 & E1 & I).
  rewrite E in E1. injection E1 as <-.
  rewrite (loop_inv_results _ _ _ I). unfold row. cbn.
  unfold trajectory.len in Hi.
  apply table_upto_row_closed; try done; lia.
Qed.

Lemma open_segment_closes_later (st : state) (n : nat) :
  1 <= skip st -> (n < length (frames st))%nat ->
  Z.of_nat n `mod` skip st <> 0 ->
  exists i, 0 <= i < trajectory.len st /\
    i `div` skip st = Z.of_nat n `div` skip st /\
    closes_at st i = true /\ Z.of_nat n <= i.
Proof.
  intros HK Hn Hm.
  assert (Hs : 0 <= Z.of_nat n `div` skip st
               < ceil_div (trajectory.len st) (skip st))
    by (apply seg_num_lt; unfold trajectory.len; lia).
  destruct (closes_exists st _ HK Hs) as (i & Hi & Hq & Hc).
  exists i. do 3 (split; [done|]).
  apply closes_at_true in Hc.
  pose proof (Z.div_mod i (skip st) ltac:(lia)) as Di.
  pose proof (Z.div_mod (Z.of_nat n) (skip st) ltac:(lia)) as Dn.
  pose proof (Z.mod_pos_bound i (skip st) ltac:(lia)).
  pose proof (Z.mod_pos_bound (Z.of_nat n) (skip st) ltac:(lia)).
  rewrite Hq in Di. unfold trajectory.len in *.
  destruct Hc as [Hc|Hc]; lia.
Qed.

(** X10: when only the first [n] frames are visited and [n] is neither the
    length of the trajectory nor a multiple of K, the last segment is
    accumulated but never finalised: the run completes, the table still
    has [ceil(F/K)] rows, and the row of that segment is all zeros. *)
Theorem X_stopped_run_open_segment (st : state) (n : nat) :
  valid_config st -> (n < length (frames st))%nat ->
  Z.of_nat n `mod` skip st <> 0 ->
  exists st' t,
    run_stop n st = Ok st' /\ results_trmsf st' = Some t /\
    Z.of_nat (length t) = ceil_div (trajectory.len st) (skip st) /\
    t !! Z.to_nat (Z.of_nat n `div` skip st)
      = Some (replicate (n_atoms st) 0%R) /\
    avg_value st' =
      Some (sum_coords (n_atoms st)
              (segment (frames st) (skip st) (Z.of_nat n - 1))).
Proof.
  intros Hv Hn Hm. pose proof (valid_skip _ Hv) as HK.
  assert (Hn0 : n <> 0%nat) by (intros ->; by apply Hm).
  destruct (run_upto_spec st n Hv ltac:(lia)) as (st0 & E & I0 & _).
  destruct (rewind_spec st st0 _ _ Hv I0) as (st1 & E1 & I).
  pose proof (loop_inv_results _ _ _ I) as Hres.
  exists st1, (table_upto st n).
  unfold run_stop. rewrite E. cbn [mbind result_bind].
  rewrite E1. cbn [mbind result_bind].
  split; [by apply (conclude_inv st st1 n)|]. split; [done|].
  destruct (table_upto_shape st n Hv) as [Hrows _].
  split.
  { rewrite Hrows. apply Z2Nat.id.
    pose proof (seg_num_lt (trajectory.len st) (skip st) 0 HK
                  ltac:(unfold trajectory.len; lia)). lia. }
  split.
  - destruct (open_segment_closes_later st n HK Hn Hm)
      as (i & Hi & Hq & Hc & Hle).
    rewrite <- Hq. by apply table_upto_row_before.
  - destruct n as [|m]; [done|].
    destruct (loop_inv_running _ _ _ I) as [-> _].
    by replace (Z.of_nat (S m) - 1) with (Z.of_nat m) by lia.
Qed.

Lemma X_stopped_run_open_segment_witness :
  valid_config scenario /\ (3 < length (frames scenario))%nat /\
  Z.of_nat 3 `mod` skip scenario <> 0 /\
  exists st' t,
    run_stop 3 scenario = Ok st' /\ results_trmsf st' = Some t /\
    Z.of_nat (length t) = ceil_div (trajectory.len scenario) (skip scenario) /\
    t !! Z.to_nat (Z.of_nat 3 `div` skip scenario)
      = Some (replicate (n_atoms scenario) 0%R) /\
    avg_value st' =
      Some (sum_coords (n_atoms scenario)
              (segment (frames scenario) (skip scenario) (Z.of_nat 3 - 1))).
Proof.
  assert (Hv : valid_config scenario) by valid_by_computation.
  assert (Hn : (3 < length (frames scenario))%nat) by (cbn; lia).
  assert (Hm : Z.of_nat 3 `mod` skip scenario <> 0) by discriminate.
  split; [exact Hv|]. split; [exact Hn|]. split; [exact Hm|].
  exact (X_stopped_run_open_segment scenario 3 Hv Hn Hm).
Defined.

(** ** What the rows measure *)

Lemma zeros3_as_scaled (f : coords) :
  np.zeros3 (length f) = map (vscale 0) f.
Proof.
  induction f as [|v f IH]; [done|].
  cbn [length map]. unfold np.zeros3 in *. cbn [replicate]. rewrite IH.
  f_equal. unfold np.vzero, vscale. f_equal; lra.
Qed.

Lemma add_scaled (f : coords) (c : R) :
  zip_with np.vadd f (map (vscale c) f) = map (vscale (c + 1)) f.
Proof.
  induction f as [|v f IH]; [done|]. cbn [map zip_with]. rewrite IH.
  f_equal. unfold np.vadd, vscale. cbn [vx vy vz]. f_equal; lra.
Qed.

Lemma sum_coords_constant (f : coords) (fs : list coords) :
  Forall (fun g => g = f) fs ->
  sum_coords (length f) fs = map (vscale (INR (length fs))) f.
Proof.
  induction 1 as [|g fs -> _ IH].
  - apply zeros3_as_scaled.
  - cbn [sum_coords length]. rewrite IH, add_scaled, S_INR. done.
Qed.

Lemma rmsf_row_of_mean_of_copies (f : coords) (n : nat) :
  n <> 0%nat ->
  rmsf_row f (map (vscale (INR n)) f) (Z.of_nat n)
  = replicate (length f) 0%R.
Proof.
  intros Hn. pose proof (not_0_INR n Hn) as Hn'.
  unfold rmsf_row, np.sqrt, np.sum_axis1, np.square, np.div.
  rewrite <- INR_IZR_INZ.
  induction f as [|v f IH]; [done|].
  cbn [map zip_with length replicate]. rewrite IH. f_equal.
  unfold np.vsquare, np.vsub, np.vdiv, vscale. cbn [vx vy vz].
  transitivity (sqrt 0); [f_equal; by field|apply sqrt_0].
Qed.

Lemma segment_elements (traj : list coords) (K i : Z) (j : nat) (g : coords) :
  1 <= K -> 0 <= i -> segment traj K i !! j = Some g ->
  exists k : nat, traj !! k = Some g /\
    K * (i `div` K) <= Z.of_nat k < K * (i `div` K + 1).
Proof.
  intros HK Hi Hg. unfold segment in Hg.
  apply lookup_take_Some in Hg as [Hg Hj]. rewrite lookup_drop in Hg.
  eexists. split; [exact Hg|].
  pose proof (Z.mod_pos_bound i K ltac:(lia)).
  pose proof (Z.div_pos i K ltac:(lia) ltac:(lia)). nia.
Qed.

(** X11: a segment in which every frame equals the reference frame has an
    all-zero row, whatever the stride: the mean of equal frames is that
    frame. *)
Theorem X_static_segment_zero (st : state) (s : Z) :
  valid_config st -> 0 <= s < ceil_div (trajectory.len st) (skip st) ->
  (forall (j : nat) (f : coords),
     skip st * s <= Z.of_nat j < skip st * (s + 1) ->
     frames st !! j = Some f -> f = reference_of st) ->
  exists st', run st = Ok st' /\
    row s (results_trmsf st') = Some (replicate (n_atoms st) 0%R).
Proof.
  intros Hv Hs Hsame. pose proof (valid_skip _ Hv) as HK.
  destruct (closes_exists st s HK Hs) as (i & Hi & Hq & Hc).
  destruct (run_spec st Hv) as (st' & E & _).
  exists st'. split; [done|].
  rewrite <- Hq, (final_row st st' i Hv E Hi Hc). f_equal.
  pose proof (reference_of_length st Hv) as Hlen.
  assert (Hall : Forall (fun g => g = reference_of st)
                   (segment (frames st) (skip st) i)).
  { apply Forall_lookup. intros j g Hg.
    destruct (segment_elements (frames st) (skip st) i j g HK
                ltac:(lia) Hg) as (k & Hk & Hb).
    rewrite Hq in Hb. by apply (Hsame k). }
  pose proof (segment_length (frames st) (skip st) i HK Hi) as Hsl.
  rewrite <- Hlen, (sum_coords_constant _ _ Hall), <- Hsl.
  apply rmsf_row_of_mean_of_copies.
  pose proof (Z.mod_pos_bound i (skip st) ltac:(lia)). lia.
Qed.

Lemma X_static_segment_zero_witness :
  valid_config scenario /\
  0 <= 1 < ceil_div (trajectory.len scenario) (skip scenario) /\
  (forall (j : nat) (f : coords),
     skip scenario * 1 <= Z.of_nat j < skip scenario * (1 + 1) ->
     frames scenario !! j = Some f -> f = reference_of scenario) /\
  exists st', run scenario = Ok st' /\
    row 1 (results_trmsf st') = Some (replicate (n_atoms scenario) 0%R).
Proof.
  assert (Hv : valid_config scenario) by valid_by_computation.
  assert (Hs : 0 <= 1 < ceil_div (trajectory.len scenario) (skip scenario))
    by (vm_compute; split; [discriminate|reflexivity]).
  assert (Hsame : forall (j : nat) (f : coords),
     skip scenario * 1 <= Z.of_nat j < skip scenario * (1 + 1) ->
     frames scenario !! j = Some f -> f = reference_of scenario).
  { intros j f Hj Hf. cbn in Hj.
    assert (j = 2%nat \/ j = 3%nat) as [-> | ->] by lia;
      cbn in Hf; by injection Hf as <-. }
  split; [exact Hv|]. split; [exact Hs|]. split; [exact Hsame|].
  exact (X_static_segment_zero scenario 1 Hv Hs Hsame).
Defined.

Lemma rmsf_row_single (ref f : coords) :
  length ref = length f ->
  rmsf_row ref (sum_coords (length f) [f]) 1 = zip_with distance ref f.
Proof.
  revert f. induction ref as [|r ref IH]; intros [|v f] Hlen; try done.
  injection Hlen as Hlen. specialize (IH f Hlen).
  unfold rmsf_row, np.sqrt, np.sum_axis1, np.square, np.div in *.
  cbn [sum_coords length] in *.
  change (np.zeros3 (S (length f))) with (np.vzero :: np.zeros3 (length f)).
  cbn [zip_with map]. rewrite IH. f_equal.
  unfold distance, np.vsquare, np.vsub, np.vdiv, np.vadd, np.vzero.
  cbn [vx vy vz]. f_equal. field.
Qed.

(** X12: with the default stride of one, entry (j, p) of the table is the
    Euclidean distance between particle p in frame j and in the
    reference frame. *)
Theorem X_unit_stride_distance (st : state) (j : nat) (f : coords) :
  valid_config st -> skip st = 1 -> frames st !! j = Some f ->
  exists st', run st = Ok st' /\
    row (Z.of_nat j) (results_trmsf st')
      = Some (zip_with distance (reference_of st) f).
Proof.
  intros Hv HK Hj. destruct (run_spec st Hv) as (st' & E & _).
  exists st'. split; [done|].
  pose proof (lookup_lt_Some _ _ _ Hj) as Hlt.
  assert (Hlen : length f = n_atoms st).
  { destruct Hv as [_ _ _ Hsh _]. eapply Forall_lookup_1 in Hsh; eauto. }
  assert (Hc : closes_at st (Z.of_nat j) = true).
  { apply closes_at_true. left. rewrite HK, Z.mod_1_r. done. }
  pose proof (final_row st st' (Z.of_nat j) Hv E
                ltac:(unfold trajectory.len; lia) Hc) as Hrow.
  rewrite HK, Z.div_1_r, Z.mod_1_r in Hrow. rewrite Hrow. f_equal.
  rewrite (segment_first _ _ _ f)
    by (rewrite ?Nat2Z.id, ?Z.mod_1_r; done || lia).
  rewrite <- Hlen. apply rmsf_row_single.
  rewrite Hlen. by apply reference_of_length.
Qed.

Lemma X_unit_stride_distance_witness :
  let st := __init__ {[1%positive := Coords []]} scenario_frames 1%positive 2 1 0 in
  valid_config st /\ skip st = 1 /\
  frames st !! 1%nat = Some [V3 2 0 0; at_origin] /\
  exists st', run st = Ok st' /\
    row (Z.of_nat 1) (results_trmsf st')
      = Some (zip_with distance (reference_of st) [V3 2 0 0; at_origin]).
Proof.
  intros st.
  assert (Hv : valid_config st) by valid_by_computation.
  split; [exact Hv|]. split; [reflexivity|]. split; [reflexivity|].
  exact (X_unit_stride_distance st 1 [V3 2 0 0; at_origin]
           Hv eq_refl eq_refl).
Defined.

(** X13: when the stride is at least the number of frames there is a single
    segment: the table has one row, the deviation of the mean over the
    whole trajectory from the reference. *)
Theorem X_stride_covers_trajectory (st : state) :
  valid_config st -> trajectory.len st <= skip st ->
  exists st', run st = Ok st' /\
    results_trmsf st' =
      Some [rmsf_row (reference_of st)
              (sum_coords (n_atoms st) (frames st)) (trajectory.len st)].
Proof.
  intros Hv Hle. pose proof (valid_skip _ Hv) as HK.
  pose proof (valid_reference _ Hv) as HR.
  destruct (run_spec st Hv) as (st' & E & I).
  exists st'. split; [done|]. rewrite (loop_inv_results _ _ _ I). f_equal.
  set (F := trajectory.len st) in *.
  assert (HF : F = Z.of_nat (length (frames st))) by done.
  destruct (table_upto_shape st (length (frames st)) Hv) as [Hrows _].
  assert (Hq : (F - 1) `div` skip st = 0) by (apply Z.div_small; lia).
  assert (Hm : (F - 1) `mod` skip st = F - 1) by (apply Z.mod_small; lia).
  assert (Hone : ceil_div F (skip st) = 1).
  { destruct (last_segment F (skip st) HK ltac:(lia)) as [L _]. lia. }
  assert (Hc : closes_at st (F - 1) = true)
    by (apply closes_at_true; right; done).
  pose proof (table_upto_row_closed st (length (frames st)) (F - 1) Hv
                ltac:(lia) ltac:(lia) Hc) as Hrow.
  rewrite Hq, Hm in Hrow. fold F in Hrow.
  replace (F - 1 + 1) with F in Hrow by lia.
  assert (Hseg : segment (frames st) (skip st) (F - 1) = frames st).
  { unfold segment. rewrite Hq, Hm, Z.mul_0_r. cbn [Z.to_nat drop].
    apply take_ge. lia. }
  rewrite Hseg in Hrow. fold F in Hrows. rewrite Hone in Hrows.
  destruct (table_upto st (length (frames st))) as [|r [|r' t]];
    cbn in Hrows, Hrow; try lia.
  by injection Hrow as ->.
Qed.

Lemma X_stride_covers_trajectory_witness :
  let st := __init__ {[1%positive := Coords []]} scenario_frames 1%positive 2 5 0 in
  valid_config st /\ trajectory.len st <= skip st /\
  exists st', run st = Ok st' /\
    results_trmsf st' =
      Some [rmsf_row (reference_of st)
              (sum_coords (n_atoms st) (frames st)) (trajectory.len st)].
Proof.
  intros st.
  assert (Hv : valid_config st) by valid_by_computation.
  assert (Hle : trajectory.len st <= skip st) by (vm_compute; discriminate).
  split; [exact Hv|]. split; [exact Hle|].
  exact (X_stride_covers_trajectory st Hv Hle).
Defined.

(** ** Moving the whole trajectory *)

Lemma zeros3_translated (d : vec3) (P : nat) :
  np.zeros3 P = map (np.vadd (vscale 0 d)) (np.zeros3 P).
Proof.
  unfold np.zeros3. induction P as [|P IH]; [done|].
  cbn [replicate map]. rewrite <- IH. f_equal.
  unfold np.vadd, vscale, np.vzero. cbn [vx vy vz]. f_equal; lra.
Qed.

Lemma add_translated (d : vec3) (c : R) (f acc : coords) :
  zip_with np.vadd (map (np.vadd d) f) (map (np.vadd (vscale c d)) acc)
  = map (np.vadd (vscale (c + 1) d)) (zip_with np.vadd f acc).
Proof.
  revert acc. induction f as [|v f IH]; intros [|w acc]; try done.
  cbn [map zip_with]. rewrite IH. f_equal.
  unfold np.vadd, vscale. cbn [vx vy vz]. f_equal; lra.
Qed.

Lemma sum_coords_translated (d : vec3) (P : nat) (fs : list coords) :
  sum_coords P (map (map (np.vadd d)) fs)
  = map (np.vadd (vscale (INR (length fs)) d)) (sum_coords P fs).
Proof.
  induction fs as [|f fs IH].
  - apply zeros3_translated.
  - cbn [map sum_coords length]. rewrite IH, add_translated, S_INR. done.
Qed.

Lemma rmsf_row_translated (d : vec3) (ref acc : coords) (n : nat) :
  n <> 0%nat ->
  rmsf_row (map (np.vadd d) ref)
           (map (np.vadd (vscale (INR n) d)) acc) (Z.of_nat n)
  = rmsf_row ref acc (Z.of_nat n).
Proof.
  intros Hn. pose proof (not_0_INR n Hn) as Hn'.
  unfold rmsf_row, np.sqrt, np.sum_axis1, np.square, np.div.
  rewrite <- INR_IZR_INZ.
  revert acc. induction ref as [|r ref IH]; intros [|a acc]; try done.
  cbn [map zip_with]. rewrite IH. f_equal.
  unfold np.vsquare, np.vsub, np.vdiv, np.vadd, vscale. cbn [vx vy vz].
  f_equal. by field.
Qed.

Lemma segment_translated (d : vec3) (traj : list coords) (K i : Z) :
  segment (map (map (np.vadd d)) traj) K i
  = map (map (np.vadd d)) (segment traj K i).
Proof. unfold segment. by rewrite <- fmap_drop, <- fmap_take. Qed.

Lemma table_upto_translated (d : vec3) (st : state) (n : nat) :
  1 <= skip st -> (n <= length (frames st))%nat ->
  table_upto (translate d st) n = table_upto st n.
Proof.
  intros HK. induction n as [|n IH]; intros Hn.
  - cbn [table_upto]. unfold trajectory.len, translate. fields.
    by rewrite length_map.
  - rewrite !table_upto_S, IH by lia.
    assert (Hc : closes_at (translate d st) (Z.of_nat n)
                 = closes_at st (Z.of_nat n)).
    { rewrite !closes_at_unfold. unfold trajectory.len, translate. fields.
      by rewrite length_map. }
    rewrite Hc. destruct (closes_at st (Z.of_nat n)); [|done].
    unfold translate at 1 3 4 5 6. fields. f_equal.
    assert (Href : reference_of (translate d st)
                   = map (np.vadd d) (reference_of st)).
    { unfold reference_of, translate. fields.
      change (map (map (np.vadd d)) (frames st))
        with (map (np.vadd d) <$> frames st).
      rewrite list_lookup_fmap.
      by destruct (frames st !! Z.to_nat (reference_frame st)). }
    rewrite Href, segment_translated, sum_coords_translated.
    pose proof (segment_length (frames st) (skip st) (Z.of_nat n) HK
                  ltac:(lia)) as Hsl.
    rewrite <- Hsl. apply rmsf_row_translated.
    pose proof (Z.mod_pos_bound (Z.of_nat n) (skip st) ltac:(lia)). lia.
Qed.

(** X14: the table depends on displacements only: moving every frame of the
    trajectory, the reference frame with them, by the same vector leaves
    every entry unchanged. *)
Theorem X_translation_invariant (st : state) (d : vec3) :
  valid_config st ->
  exists st1 st2 t,
    run st = Ok st1 /\ run (translate d st) = Ok st2 /\
    results_trmsf st1 = Some t /\ results_trmsf st2 = Some t.
Proof.
  intros Hv.
  assert (Hv' : valid_config (translate d st)).
  { destruct Hv as [HP HK HR Hsh Hbuf].
    split; unfold trajectory.len, translate in *; fields;
      rewrite ?length_map; try done.
    apply Forall_forall. intros g Hg.
    apply list_elem_of_In, in_map_iff in Hg as (f & <- & Hf).
    rewrite length_map. rewrite Forall_forall in Hsh.
    by apply Hsh, list_elem_of_In. }
  destruct (run_spec st Hv) as (st1 & E1 & I1).
  destruct (run_spec _ Hv') as (st2 & E2 & I2).
  exists st1, st2, (table_upto st (length (frames st))).
  do 2 (split; [done|]). split; [by eapply loop_inv_results|].
  rewrite (loop_inv_results _ _ _ I2).
  unfold translate at 2. fields. rewrite length_map.
  by rewrite table_upto_translated by (apply Hv || lia).
Qed.

Lemma X_translation_invariant_witness :
  valid_config scenario /\
  exists st1 st2 t,
    run scenario = Ok st1 /\ run (translate (V3 1 2 3) scenario) = Ok st2 /\
    results_trmsf st1 = Some t /\ results_trmsf st2 = Some t.
Proof.
  assert (Hv : valid_config scenario) by valid_by_computation.
  split; [exact Hv | exact (X_translation_invariant scenario (V3 1 2 3) Hv)].
Defined.

(** ** A reference index counted from the end *)

Lemma getitem_with_reference (r : Z) (i : Z) (st st' : state) :
  trajectory.getitem i st = Ok st' ->
  trajectory.getitem i (with_reference r st) = Ok (with_reference r st').
Proof.
  intros H. unfold trajectory.getitem, with_reference in *.
  destruct st as [h traj buf P K R fi avg sl rp tr]. fields.
  invert_ok H. by injection H as <-.
Qed.

Lemma accumulate_with_reference (r : Z) (st st' : state) :
  accumulate st = Ok st' ->
  accumulate (with_reference r st) = Ok (with_reference r st').
Proof.
  intros H.
  unfold accumulate, trajectory.positions, load_coords, np.add,
    with_reference in *.
  destruct st as [h traj buf P K R fi avg sl rp tr]. fields.
  destruct (fi `mod` K =? 0); invert_ok H; by injection H as <-.
Qed.

Lemma finalise_with_reference (r : Z) (st st' : state) :
  finalise st = Ok st' ->
  finalise (with_reference r st) = Ok (with_reference r st').
Proof.
  intros H.
  unfold finalise, closes, trajectory.len, load_coords, load_table, np.sub,
    with_reference in *.
  destruct st as [h traj buf P K R fi avg sl rp tr]. fields.
  destruct (_ || _); [|by injection H as <-].
  invert_ok H. by injection H as <-.
Qed.

Lemma visit_with_reference (r : Z) (i : nat) (st st' : state) :
  visit st i = Ok st' ->
  visit (with_reference r st) i = Ok (with_reference r st').
Proof.
  intros H. unfold visit in *.
  destruct (trajectory.getitem (Z.of_nat i) st) as [st1|] eqn:E1; [|done].
  rewrite (getitem_with_reference r _ _ _ E1).
  cbn [mbind result_bind] in *. rewrite single_frame_split in *.
  change (set_frame_index (Z.of_nat i) (with_reference r st1))
    with (with_reference r (set_frame_index (Z.of_nat i) st1)).
  change (skip (with_reference r (set_frame_index (Z.of_nat i) st1)))
    with (skip (set_frame_index (Z.of_nat i) st1)).
  destruct (decide _); [done|].
  destruct (accumulate _) as [st2|] eqn:E2; [|done].
  rewrite (accumulate_with_reference r _ _ E2).
  cbn [mbind result_bind] in *. by apply finalise_with_reference.
Qed.

Lemma frames_loop_with_reference (r : Z) (idx : list nat) (st st' : state) :
  frames_loop idx st = Ok st' ->
  frames_loop idx (with_reference r st) = Ok (with_reference r st').
Proof.
  revert st. induction idx as [|i idx IH]; intros st H; cbn in *.
  - by injection H as <-.
  - destruct (visit st i) as [st1|] eqn:E; [|done].
    rewrite (visit_with_reference r _ _ _ E). cbn in *. by apply IH.
Qed.

Lemma conclude_with_reference (r : Z) (st st' : state) :
  _conclude st = Ok st' ->
  _conclude (with_reference r st) = Ok (with_reference r st').
Proof.
  intros H. unfold _conclude, load_table, with_reference in *.
  destruct st as [h traj buf P K R fi avg sl rp tr]. fields.
  invert_ok H. by injection H as <-.
Qed.

Lemma prepare_from_the_end (r : Z) (st st' : state) :
  - trajectory.len st <= r < 0 ->
  _prepare (with_reference (r + trajectory.len st) st) = Ok st' ->
  _prepare (with_reference r st) = Ok (with_reference r st').
Proof.
  intros Hr H.
  unfold _prepare, trajectory.len_sliced, trajectory.getitem,
    trajectory.positions, load_coords, trajectory.len, np.index,
    with_reference in *.
  destruct st as [h traj buf P K R fi avg sl rp tr]. fields.
  destruct (decide (K = 0)); [done|]. fields.
  rewrite decide_True in H by lia.
  rewrite decide_False, decide_True by lia. fields.
  destruct (traj !! Z.to_nat (r + Z.of_nat (length traj))); [|done]. fields.
  rewrite lookup_insert_eq in *. fields. by injection H as <-.
Qed.

(** X15: a reference index R in [[-F, 0)] counts from the end: the run
    behaves exactly as with R + F, and yields the same table. *)
Theorem X_reference_from_the_end (st st' : state) :
  - trajectory.len st <= reference_frame st < 0 ->
  run (with_reference (reference_frame st + trajectory.len st) st) = Ok st' ->
  run st = Ok (with_reference (reference_frame st) st') /\
  results_trmsf (with_reference (reference_frame st) st') = results_trmsf st'.
Proof.
  intros Hr H. split; [|done].
  replace st with (with_reference (reference_frame st) st) at 1
    by (by destruct st).
  unfold run, run_upto in *.
  change (frames (with_reference _ st)) with (frames st) in *.
  destruct (_prepare (with_reference (reference_frame st + _) st))
    as [st1|] eqn:E1; [|done].
  rewrite (prepare_from_the_end _ _ _ Hr E1). cbn [mbind result_bind] in *.
  destruct (frames_loop _ st1) as [st2|] eqn:E2; [|done].
  rewrite (frames_loop_with_reference _ _ _ _ E2).
  cbn [mbind result_bind] in *. unfold trajectory.rewind in *.
  destruct (trajectory.getitem 0 st2) as [st3|] eqn:E3; [|done].
  rewrite (getitem_with_reference _ _ _ _ E3).
  cbn [mbind result_bind] in *. by apply conclude_with_reference.
Qed.

Lemma X_reference_from_the_end_witness :
  exists st',
    - trajectory.len from_the_end <= reference_frame from_the_end < 0 /\
    run (with_reference
           (reference_frame from_the_end + trajectory.len from_the_end)
           from_the_end) = Ok st' /\
    run from_the_end = Ok (with_reference (reference_frame from_the_end) st') /\
    results_trmsf (with_reference (reference_frame from_the_end) st')
      = results_trmsf st'.
Proof.
  assert (Hr : - trajectory.len from_the_end
               <= reference_frame from_the_end < 0)
    by (unfold trajectory.len; cbn; lia).
  assert (Hv : valid_config
                 (with_reference
                    (reference_frame from_the_end
                     + trajectory.len from_the_end) from_the_end))
    by valid_by_computation.
  destruct (run_spec _ Hv) as (st' & E & _).
  exists st'. split; [exact Hr|]. split; [exact E|].
  exact (X_reference_from_the_end from_the_end st' Hr E).
Defined.
